(** * Port-forward helpers of the CockroachDB Terraform provider

    A shallow embedding of [internal/provider/helper.go]: the pure helpers
    ([getPodName], [mapToSelectorStr], [convertToString], [contains]) as
    functions, and [tryPortForwardIfNeeded] as a small interleaving
    semantics over its goroutines and channels. *)

From Stdlib Require Import String Ascii ZArith Lia.
From stdpp Require Import base tactics option list strings gmap pretty.


(** ** Go values used by the helpers *)

(** Go's [error] values as built by [fmt.Errorf]: a plain message, or a
    message that wraps a cause through the [%w] verb. *)
Inductive error : Type :=
| Errorf (msg : string)
| Wrapf (prefix : string) (cause : error).

(** [err.Error()]: a wrapping error prints as ["prefix: cause"]. *)
Fixpoint Error (e : error) : string :=
  match e with
  | Errorf msg => msg
  | Wrapf prefix cause => prefix +:+ ": " +:+ Error cause
  end.

(** A call that either returns a value or a non-nil [error]. *)
Inductive result (A : Type) : Type :=
| Ok (a : A)
| Err (e : error).
Arguments Ok {A} a.
Arguments Err {A} e.

(** [v1.PodPhase] is a string type; these are its constants. *)
Definition PodPhase : Type := string.
Definition PodPending : PodPhase := "Pending".
Definition PodRunning : PodPhase := "Running".
Definition PodSucceeded : PodPhase := "Succeeded".
Definition PodFailed : PodPhase := "Failed".
Definition PodUnknown : PodPhase := "Unknown".

(** The two fields of [v1.Pod] the helpers read: [pod.Name] and
    [pod.Status.Phase]. *)
Record Pod : Type := { Name : string; Phase : PodPhase }.

Record PodList : Type := { Items : list Pod }.

(** Dynamically typed values held by a [[]interface{}]. *)
Inductive GoValue : Type :=
| VString (s : string)
| VInt (n : Z)
| VBool (b : bool)
| VNil.

(** A Go call that returns normally or panics. *)
Inductive outcome (A : Type) : Type :=
| Returned (a : A)
| Panicked (msg : string).
Arguments Returned {A} a.
Arguments Panicked {A} msg.

(** ** getPodName *)

(** The [range pods.Items] loop: skip every pod that is not Running, return
    the first one that is. *)
Fixpoint getPodName_range (items : list Pod) : string * option error :=
  match items with
  | [] => ("", Some (Errorf "no live pods behind the service"))
  | pod :: rest =>
      if negb (String.eqb (Phase pod) PodRunning)
      then getPodName_range rest
      else (Name pod, None)
  end.

Definition getPodName (pods : PodList) : string * option error :=
  getPodName_range (Items pods).

(** ** mapToSelectorStr *)

(** [fmt.Sprintf("%s=%s", k, v)]. *)
Definition Sprintf_clause (k v : string) : string := k +:+ "=" +:+ v.

(** The body of the [range msel] loop, run over the entries in the order the
    runtime yields them, with [selector] as the accumulator. *)
Fixpoint mapToSelectorStr_range (selector : string)
    (entries : list (string * string)) : string :=
  match entries with
  | [] => selector
  | (k, v) :: rest =>
      let selector :=
        if negb (String.eqb selector "") then selector +:+ "," else selector in
      mapToSelectorStr_range (selector +:+ Sprintf_clause k v) rest
  end.

(** Go leaves the iteration order of a map unspecified: [range_order] is the
    order the runtime picks for a given map. *)
Definition mapToSelectorStr (range_order : gmap string string → list (string * string))
    (msel : gmap string string) : string :=
  mapToSelectorStr_range "" (range_order msel).

(** Occurrences of a character in a string. *)
Fixpoint count_char (c : ascii) (s : string) : nat :=
  match s with
  | EmptyString => 0
  | String a rest => (if Ascii.eqb a c then 1 else 0) + count_char c rest
  end.

(** ** convertToString *)

Definition typeName (v : GoValue) : string :=
  match v with
  | VString _ => "string"
  | VInt _ => "int"
  | VBool _ => "bool"
  | VNil => "nil"
  end.

(** The loop [for i, raw := range raw_list { val[i] = raw.(string) }]: the
    unguarded assertion panics on the first element that is not a string. *)
Fixpoint convertToString_range (i : nat) (raw_list : list GoValue)
    (val : list string) : outcome (list string) :=
  match raw_list with
  | [] => Returned val
  | raw :: rest =>
      match raw with
      | VString s => convertToString_range (S i) rest (<[i := s]> val)
      | other =>
          Panicked ("interface conversion: interface {} is " +:+ typeName other
                    +:+ ", not string")
      end
  end.

(** [val := make([]string, len(raw_list))] followed by the loop. *)
Definition convertToString (raw_list : list GoValue) : outcome (list string) :=
  convertToString_range 0 raw_list (replicate (length raw_list) "").

Definition isString (v : GoValue) : Prop := ∃ s, v = VString s.

(** ** contains *)

Fixpoint contains (elems : list string) (v : string) : bool :=
  match elems with
  | [] => false
  | s :: rest => if String.eqb v s then true else contains rest v
  end.

(** ** tryPortForwardIfNeeded: collaborators *)

(** The fields of [v1.Service] the code reads: [svc.Namespace] and
    [svc.Spec.Selector]. *)
Record Service : Type := {
  SvcNamespace : string;
  SvcSelector : gmap string string
}.

(** [rest.Config], of which only [Host] is read. *)
Record RestConfig : Type := { Host : string }.

(** [portforward.ForwardedPort]. *)
Record ForwardedPort : Type := { Local : N; Remote : N }.

(** [cockroachClient.kubeConn]; a nil [kubeConfig] is [None]. *)
Record kubeConn : Type := {
  kubeConfig : option RestConfig;
  nameSpace : string;
  serviceName : string;
  remotePort : string
}.

(** What the external collaborators answer during one attempt: the
    Kubernetes client set, [url.Parse], the SPDY transport, the port
    forwarder, and the order in which the runtime ranges over a map. *)
Record World : Type := {
  ServicesGet : string → string → result Service;
  PodsList : string → string → result PodList;
  urlParse : string → result string;
  RoundTripperFor : RestConfig → result unit;
  NewOnAddresses : list string → list string → result unit;
  GetPorts : result (list ForwardedPort);
  rangeOrder : gmap string string → list (string * string)
}.

(** A [range] over a map visits every entry exactly once. *)
Definition rangeVisitsOnce (w : World) : Prop :=
  ∀ m, rangeOrder w m ≡ₚ map_to_list m.

Inductive Level : Type := LDebug | LInfo | LError.

Inductive Call : Type :=
| CServicesGet (ns name : string)
| CPodsList (ns selector : string)
| CUrlParse (rawurl : string)
| CRoundTripperFor (cfg : RestConfig)
| CNewDialer (serverURL : string)
| CNewOnAddresses (addresses ports : list string)
| CGetPorts.

(** The statements of the setup goroutine that are visible from outside. *)
Inductive Action : Type :=
| ACall (c : Call)
| ALog (lvl : Level) (msg : string)
| ASend (e : error)
| AGoForward
| ARecvReady
| ACloseErr.

(** ** The errors of the setup goroutine, as the source builds them *)

Definition ServiceLookupFailed (err : error) : error :=
  Wrapf "failed to get Kubernetes service" err.
Definition EmptySelector (serviceName : string) : error :=
  Errorf ("service " +:+ serviceName +:+ " has no selector").
Definition PodListFailed (err : error) : error :=
  Wrapf "failed to get pod list" err.
Definition NoCandidates (selector : string) : error :=
  Errorf ("no CockroachDB pods found with selector " +:+ selector).
Definition NoHealthyBackend (err : error) : error :=
  Wrapf "failed to get live pod" err.
Definition URLConstructionFailed (err : error) : error :=
  Wrapf "failed to construct server URL" err.
Definition TransportSetupFailed (err : error) : error :=
  Wrapf "failed to create round tripper" err.
Definition TunnelCreationFailed (err : error) : error :=
  Wrapf "failed to create port-forward" err.
Definition PortQueryFailed (err : error) : error :=
  Wrapf "failed to get port-forward ports" err.
Definition UnexpectedPortCount (n : nat) : error :=
  Errorf ("unexpected number of forwarded ports: got " +:+ pretty n
          +:+ ", expected 1").

(** [logError(msg); errCh <- err; return], after which the deferred
    [close(errCh)] runs. *)
Definition abort (msg : string) (err : error) : list Action :=
  [ALog LError msg; ASend err; ACloseErr].

Definition serverURLString (host nameSpace livePod : string) : string :=
  host +:+ "/api/v1/namespaces/" +:+ nameSpace +:+ "/pods/" +:+ livePod
  +:+ "/portforward".

Definition establishedMsg (localPort remotePort livePod : string) : string :=
  "Port forwarding established: " +:+ localPort +:+ ":" +:+ remotePort
  +:+ " -> " +:+ livePod.

(** ** The setup goroutine (lines 41-132) *)

(** From [<-readyCh] on: query the bound ports and check their number. *)
Definition afterReady (w : World) (localPort remotePort livePod : string)
    : list Action :=
  ACall CGetPorts ::
  match GetPorts w with
  | Err err =>
      abort ("failed to get port-forward ports: " +:+ Error err)
            (PortQueryFailed err)
  | Ok actualPorts =>
      if negb (Nat.eqb (length actualPorts) 1)
      then let err := UnexpectedPortCount (length actualPorts) in
           abort (Error err) err
      else [ALog LInfo (establishedMsg localPort remotePort livePod); ACloseErr]
  end.

(** From the chosen pod to the running forwarder. *)
Definition startTunnel (w : World) (cfg : RestConfig)
    (nameSpace remotePort localPort livePod : string) : list Action :=
  let rawurl := serverURLString (Host cfg) nameSpace livePod in
  ACall (CUrlParse rawurl) ::
  match urlParse w rawurl with
  | Err err =>
      abort ("failed to construct server URL: " +:+ Error err)
            (URLConstructionFailed err)
  | Ok serverURL =>
      ACall (CRoundTripperFor cfg) ::
      match RoundTripperFor w cfg with
      | Err err =>
          abort ("failed to create round tripper: " +:+ Error err)
                (TransportSetupFailed err)
      | Ok _ =>
          let addresses := ["127.0.0.1"] in
          let ports := [localPort +:+ ":" +:+ remotePort] in
          ACall (CNewDialer serverURL) ::
          ACall (CNewOnAddresses addresses ports) ::
          match NewOnAddresses w addresses ports with
          | Err err =>
              abort ("failed to create port-forward " +:+ localPort +:+ ":"
                     +:+ remotePort +:+ ": " +:+ Error err)
                    (TunnelCreationFailed err)
          | Ok _ =>
              AGoForward :: ARecvReady ::
              afterReady w localPort remotePort livePod
          end
      end
  end.

(** The whole goroutine: every path ends with the deferred [close(errCh)]. *)
Definition setupSequence (w : World) (cfg : RestConfig)
    (nameSpace serviceName remotePort localPort : string) : list Action :=
  ACall (CServicesGet nameSpace serviceName) ::
  match ServicesGet w nameSpace serviceName with
  | Err err =>
      abort ("failed to get Kubernetes service " +:+ serviceName
             +:+ " in namespace " +:+ nameSpace +:+ ": " +:+ Error err)
            (ServiceLookupFailed err)
  | Ok svc =>
      let selector := mapToSelectorStr (rangeOrder w) (SvcSelector svc) in
      if String.eqb selector ""
      then let err := EmptySelector serviceName in
           abort ("failed to get service selector: " +:+ Error err) err
      else
        ACall (CPodsList (SvcNamespace svc) selector) ::
        match PodsList w (SvcNamespace svc) selector with
        | Err err =>
            abort ("failed to get pod list for selector " +:+ selector
                   +:+ ": " +:+ Error err)
                  (PodListFailed err)
        | Ok pods =>
            if Nat.eqb (length (Items pods)) 0
            then let err := NoCandidates selector in
                 abort (Error err) err
            else
              match getPodName pods with
              | (_, Some err) =>
                  abort ("failed to get live CockroachDB pod: " +:+ Error err)
                        (NoHealthyBackend err)
              | (livePod, None) =>
                  startTunnel w cfg nameSpace remotePort localPort livePod
              end
        end
  end.

(** The errors a script sends on [errCh], in order. *)
Fixpoint sends (script : list Action) : list error :=
  match script with
  | [] => []
  | ASend e :: rest => e :: sends rest
  | _ :: rest => sends rest
  end.

(** The collaborator calls of a script, in order. *)
Fixpoint calls (script : list Action) : list Call :=
  match script with
  | [] => []
  | ACall c :: rest => c :: calls rest
  | _ :: rest => calls rest
  end.

(** ** tryPortForwardIfNeeded: goroutines and channels *)

(** [diag.Diagnostic] and [diag.FromErr]: a nil error gives nil
    diagnostics, any other a single error diagnostic. *)
Inductive Severity : Type := SevError | SevWarning.

Record Diagnostic : Type := { DiagSeverity : Severity; Summary : string }.

Definition Diagnostics : Type := list Diagnostic.

Definition FromErr (err : option error) : Diagnostics :=
  match err with
  | None => []
  | Some e => [{| DiagSeverity := SevError; Summary := Error e |}]
  end.

(** The caller's side: suspended in the [select], or returned. *)
Inductive Gate : Type :=
| GSelect
| GReturned (d : Diagnostics).

(** The goroutine of lines 35-39: [<-sigs], then the log line, then
    [close(stopCh)]. *)
Inductive Watcher : Type :=
| WNotSpawned
| WWaiting
| WSignalled
| WClosing
| WDone.

(** [pf.ForwardPorts()], which belongs to client-go: once running it closes
    [readyCh] when its listeners are up, and it may exit at any time. *)
Inductive Forwarder : Type :=
| FNotSpawned
| FRunning
| FReady
| FExited.

Inductive Event : Type :=
| ESetup (a : Action)
| EWatcherLog (lvl : Level) (msg : string)
| ECloseStop
| ECloseReady
| EGateLog (lvl : Level) (msg : string)
| EReturn (d : Diagnostics).

(** [errCh := make(chan error, 1)]. *)
Definition errCap : nat := 1.

Record State : Type := {
  errBuf : list error;
  errClosed : bool;
  stopClosed : bool;
  readyClosed : bool;
  setup : option (list Action);
  watcher : Watcher;
  forwarder : Forwarder;
  gate : Gate;
  crashed : option string;
  trace : list Event
}.

Definition emit (ev : Event) (st : State) : State :=
  {| errBuf := errBuf st; errClosed := errClosed st;
     stopClosed := stopClosed st; readyClosed := readyClosed st;
     setup := setup st; watcher := watcher st; forwarder := forwarder st;
     gate := gate st; crashed := crashed st; trace := trace st ++ [ev] |}.

Definition panic (msg : string) (st : State) : State :=
  {| errBuf := errBuf st; errClosed := errClosed st;
     stopClosed := stopClosed st; readyClosed := readyClosed st;
     setup := setup st; watcher := watcher st; forwarder := forwarder st;
     gate := gate st; crashed := Some msg; trace := trace st |}.

Definition setSetup (k : list Action) (st : State) : State :=
  {| errBuf := errBuf st; errClosed := errClosed st;
     stopClosed := stopClosed st; readyClosed := readyClosed st;
     setup := Some k; watcher := watcher st; forwarder := forwarder st;
     gate := gate st; crashed := crashed st; trace := trace st |}.

Definition setErrCh (buf : list error) (closed : bool) (st : State) : State :=
  {| errBuf := buf; errClosed := closed;
     stopClosed := stopClosed st; readyClosed := readyClosed st;
     setup := setup st; watcher := watcher st; forwarder := forwarder st;
     gate := gate st; crashed := crashed st; trace := trace st |}.

Definition setStop (st : State) : State :=
  {| errBuf := errBuf st; errClosed := errClosed st;
     stopClosed := true; readyClosed := readyClosed st;
     setup := setup st; watcher := watcher st; forwarder := forwarder st;
     gate := gate st; crashed := crashed st; trace := trace st |}.

Definition setReady (st : State) : State :=
  {| errBuf := errBuf st; errClosed := errClosed st;
     stopClosed := stopClosed st; readyClosed := true;
     setup := setup st; watcher := watcher st; forwarder := forwarder st;
     gate := gate st; crashed := crashed st; trace := trace st |}.

Definition setWatcher (x : Watcher) (st : State) : State :=
  {| errBuf := errBuf st; errClosed := errClosed st;
     stopClosed := stopClosed st; readyClosed := readyClosed st;
     setup := setup st; watcher := x; forwarder := forwarder st;
     gate := gate st; crashed := crashed st; trace := trace st |}.

Definition setForwarder (x : Forwarder) (st : State) : State :=
  {| errBuf := errBuf st; errClosed := errClosed st;
     stopClosed := stopClosed st; readyClosed := readyClosed st;
     setup := setup st; watcher := watcher st; forwarder := x;
     gate := gate st; crashed := crashed st; trace := trace st |}.

Definition setGate (x : Gate) (st : State) : State :=
  {| errBuf := errBuf st; errClosed := errClosed st;
     stopClosed := stopClosed st; readyClosed := readyClosed st;
     setup := setup st; watcher := watcher st; forwarder := forwarder st;
     gate := x; crashed := crashed st; trace := trace st |}.

(** One statement of the setup goroutine. A send blocks while the buffer is
    full and panics on a closed channel; [<-readyCh] blocks until the
    channel is closed. *)
Definition stepSetup (st : State) : option State :=
  match setup st with
  | Some (a :: k) =>
      match a with
      | ACall _ | ALog _ _ => Some (emit (ESetup a) (setSetup k st))
      | ASend e =>
          if errClosed st then Some (panic "send on closed channel" st)
          else if decide (length (errBuf st) < errCap)
          then Some (emit (ESetup a)
                       (setErrCh (errBuf st ++ [e]) false (setSetup k st)))
          else None
      | AGoForward =>
          Some (emit (ESetup a) (setForwarder FRunning (setSetup k st)))
      | ARecvReady =>
          if readyClosed st then Some (emit (ESetup a) (setSetup k st))
          else None
      | ACloseErr =>
          if errClosed st then Some (panic "close of closed channel" st)
          else Some (emit (ESetup a)
                       (setErrCh (errBuf st) true (setSetup k st)))
      end
  | _ => None
  end.

(** What the scheduler, the operating system and client-go can do next. *)
Inductive Move : Type :=
| MSetup
| MSignal
| MWatcher
| MForwardReady
| MForwardExit
| MGateReady
| MGateErr.

Definition step (m : Move) (st : State) : option State :=
  match crashed st with
  | Some _ => None
  | None =>
      match m with
      | MSetup => stepSetup st
      | MSignal =>
          match watcher st with
          | WWaiting => Some (setWatcher WSignalled st)
          | _ => None
          end
      | MWatcher =>
          match watcher st with
          | WSignalled =>
              Some (emit (EWatcherLog LInfo "Stopping a forward process...")
                      (setWatcher WClosing st))
          | WClosing =>
              if stopClosed st then Some (panic "close of closed channel" st)
              else Some (emit ECloseStop (setStop (setWatcher WDone st)))
          | _ => None
          end
      | MForwardReady =>
          match forwarder st with
          | FRunning =>
              if readyClosed st then Some (panic "close of closed channel" st)
              else Some (emit ECloseReady (setReady (setForwarder FReady st)))
          | _ => None
          end
      | MForwardExit =>
          match forwarder st with
          | FRunning | FReady => Some (setForwarder FExited st)
          | _ => None
          end
      | MGateReady =>
          match gate st with
          | GSelect =>
              if readyClosed st
              then Some (emit (EReturn [])
                           (emit (EGateLog LDebug
                                    "Port-forwarding is ready to handle traffic")
                              (setGate (GReturned []) st)))
              else None
          | GReturned _ => None
          end
      | MGateErr =>
          match gate st with
          | GSelect =>
              match errBuf st with
              | e :: buf =>
                  let d := FromErr (Some e) in
                  Some (emit (EReturn d)
                          (setErrCh buf (errClosed st) (setGate (GReturned d) st)))
              | [] =>
                  if errClosed st
                  then let d := FromErr None in
                       Some (emit (EReturn d) (setGate (GReturned d) st))
                  else None
              end
          | GReturned _ => None
          end
      end
  end.

(** A schedule is run move by move; it is an execution when every move is
    enabled where it is taken. *)
Fixpoint run (sched : list Move) (st : State) : option State :=
  match sched with
  | [] => Some st
  | m :: rest =>
      match step m st with
      | Some st' => run rest st'
      | None => None
      end
  end.

(** The call itself, up to the point where the caller is suspended in the
    [select] (or has returned through the guard): [stopCh] and [readyCh] are
    the caller's channels, given by whether they are closed already. *)
Definition tryPortForwardIfNeeded (w : World) (conn : kubeConn)
    (stopCh readyCh : bool) (localPort : string) : State :=
  match kubeConfig conn with
  | Some cfg =>
      {| errBuf := []; errClosed := false;
         stopClosed := stopCh; readyClosed := readyCh;
         setup := Some (setupSequence w cfg (nameSpace conn) (serviceName conn)
                          (remotePort conn) localPort);
         watcher := WWaiting; forwarder := FNotSpawned;
         gate := GSelect; crashed := None; trace := [] |}
  | None =>
      {| errBuf := []; errClosed := false;
         stopClosed := stopCh; readyClosed := readyCh;
         setup := None; watcher := WNotSpawned; forwarder := FNotSpawned;
         gate := GReturned []; crashed := None; trace := [] |}
  end.

(** The actions the setup goroutine has performed so far, the errors it has
    sent, and the calls it has made. *)
Fixpoint performed (tr : list Event) : list Action :=
  match tr with
  | [] => []
  | ESetup a :: rest => a :: performed rest
  | _ :: rest => performed rest
  end.

Definition sentErrors (st : State) : list error := sends (performed (trace st)).

Definition callsMade (st : State) : list Call := calls (performed (trace st)).

(** ** The steps of one attempt, as the specification lists them *)

Section Steps.
Variables (w : World) (cfg : RestConfig).
Variables (ns name rport lport : string).

(** Steps 1-4 succeeded and picked [livePod]. *)
Definition picks (livePod : string) : Prop :=
  ∃ svc pods,
    ServicesGet w ns name = Ok svc ∧
    mapToSelectorStr (rangeOrder w) (SvcSelector svc) ≠ "" ∧
    PodsList w (SvcNamespace svc)
      (mapToSelectorStr (rangeOrder w) (SvcSelector svc)) = Ok pods ∧
    Items pods ≠ [] ∧
    getPodName pods = (livePod, None).

(** Steps 1-7 succeeded: the tunnel to [livePod] was created. *)
Definition tunnels (livePod : string) : Prop :=
  picks livePod ∧
  (∃ serverURL, urlParse w (serverURLString (Host cfg) ns livePod) = Ok serverURL) ∧
  (∃ u, RoundTripperFor w cfg = Ok u) ∧
  (∃ u, NewOnAddresses w ["127.0.0.1"] [lport +:+ ":" +:+ rport] = Ok u).

(** A failure of one of the steps 1-7, all earlier steps having succeeded:
    it is detected before the tunnel can report readiness. *)
Inductive FailsBeforeReady : error → Prop :=
| fails_service err :
    ServicesGet w ns name = Err err →
    FailsBeforeReady (ServiceLookupFailed err)
| fails_selector svc :
    ServicesGet w ns name = Ok svc →
    mapToSelectorStr (rangeOrder w) (SvcSelector svc) = "" →
    FailsBeforeReady (EmptySelector name)
| fails_list svc err :
    ServicesGet w ns name = Ok svc →
    mapToSelectorStr (rangeOrder w) (SvcSelector svc) ≠ "" →
    PodsList w (SvcNamespace svc)
      (mapToSelectorStr (rangeOrder w) (SvcSelector svc)) = Err err →
    FailsBeforeReady (PodListFailed err)
| fails_candidates svc pods :
    ServicesGet w ns name = Ok svc →
    mapToSelectorStr (rangeOrder w) (SvcSelector svc) ≠ "" →
    PodsList w (SvcNamespace svc)
      (mapToSelectorStr (rangeOrder w) (SvcSelector svc)) = Ok pods →
    Items pods = [] →
    FailsBeforeReady
      (NoCandidates (mapToSelectorStr (rangeOrder w) (SvcSelector svc)))
| fails_pick svc pods err :
    ServicesGet w ns name = Ok svc →
    mapToSelectorStr (rangeOrder w) (SvcSelector svc) ≠ "" →
    PodsList w (SvcNamespace svc)
      (mapToSelectorStr (rangeOrder w) (SvcSelector svc)) = Ok pods →
    Items pods ≠ [] →
    snd (getPodName pods) = Some err →
    FailsBeforeReady (NoHealthyBackend err)
| fails_url livePod err :
    picks livePod →
    urlParse w (serverURLString (Host cfg) ns livePod) = Err err →
    FailsBeforeReady (URLConstructionFailed err)
| fails_transport livePod serverURL err :
    picks livePod →
    urlParse w (serverURLString (Host cfg) ns livePod) = Ok serverURL →
    RoundTripperFor w cfg = Err err →
    FailsBeforeReady (TransportSetupFailed err)
| fails_tunnel livePod serverURL u err :
    picks livePod →
    urlParse w (serverURLString (Host cfg) ns livePod) = Ok serverURL →
    RoundTripperFor w cfg = Ok u →
    NewOnAddresses w ["127.0.0.1"] [lport +:+ ":" +:+ rport] = Err err →
    FailsBeforeReady (TunnelCreationFailed err).

(** A failure of step 10: it is detected after the tunnel reported
    readiness. *)
Inductive FailsAfterReady : error → Prop :=
| fails_query livePod err :
    tunnels livePod →
    GetPorts w = Err err →
    FailsAfterReady (PortQueryFailed err)
| fails_count livePod actualPorts :
    tunnels livePod →
    GetPorts w = Ok actualPorts →
    length actualPorts ≠ 1 →
    FailsAfterReady (UnexpectedPortCount (length actualPorts)).

Definition StepFails (e : error) : Prop :=
  FailsBeforeReady e ∨ FailsAfterReady e.

(** All of steps 1-10 succeeded. *)
Definition allStepsPass (livePod : string) : Prop :=
  tunnels livePod ∧ ∃ actualPorts, GetPorts w = Ok actualPorts ∧ length actualPorts = 1.
End Steps.

Definition isCall (a : Action) : Prop :=
  match a with ACall _ => True | _ => False end.

(** The success line of line 131 occurs among the given actions. *)
Definition successLogged (l : list Action) : Prop :=
  ∃ msg, ALog LInfo msg ∈ l.

(** The part of a script that follows the creation of the tunnel. *)
Definition awaitThen (tail : list Action) : list Action :=
  AGoForward :: ARecvReady :: ACall CGetPorts :: tail.

(** ** What holds in every state of an attempt *)

(** The caller's side, given the actions [past] the setup goroutine has
    performed: while the caller is in its [select] the buffer holds what was
    sent; once it has returned, either it returned nil (on readiness, or on
    a channel closed without a send) or it returned the one error sent. *)
Definition gateInv (past : list Action) (st : State) : Prop :=
  match gate st with
  | GSelect => errBuf st = sends past
  | GReturned d =>
      (d = [] ∧ errBuf st = sends past ∧
       (readyClosed st = true ∨ (ACloseErr ∈ past ∧ sends past = [])))
      ∨ (∃ e, d = FromErr (Some e) ∧ sends past = [e] ∧ errBuf st = [])
  end.

(** [script] is the whole setup goroutine and [ready0] tells whether the
    caller handed in a [readyCh] that was closed already. *)
Definition attemptInv (script : list Action) (ready0 : bool) (st : State) : Prop :=
  ∃ past rest,
    script = past ++ rest ∧
    setup st = Some rest ∧
    performed (trace st) = past ∧
    (errClosed st = true ↔ ACloseErr ∈ past) ∧
    gateInv past st ∧
    (forwarder st ≠ FNotSpawned → AGoForward ∈ past) ∧
    (readyClosed st = true → ready0 = true ∨ forwarder st ≠ FNotSpawned) ∧
    (ARecvReady ∈ past → readyClosed st = true).

(** ** Concrete attempts *)

Definition pod0 : Pod := {| Name := "p0"; Phase := PodPending |}.
Definition pod1 : Pod := {| Name := "p1"; Phase := PodRunning |}.

Definition scenarioPods : PodList := {| Items := [pod0; pod1] |}.

Definition scenarioConn : kubeConn :=
  {| kubeConfig := Some {| Host := "https://k8s.example" |};
     nameSpace := "db"; serviceName := "cockroachdb-public";
     remotePort := "26257" |}.

Definition unconfiguredConn : kubeConn :=
  {| kubeConfig := None; nameSpace := "db";
     serviceName := "cockroachdb-public"; remotePort := "26257" |}.

(** A cluster that answers every call, with the given selector and bound
    ports. *)
Definition scenarioWorld (selector : gmap string string)
    (ports : result (list ForwardedPort)) : World :=
  {| ServicesGet := λ ns _, Ok {| SvcNamespace := ns; SvcSelector := selector |};
     PodsList := λ _ _, Ok scenarioPods;
     urlParse := λ rawurl, Ok rawurl;
     RoundTripperFor := λ _, Ok ();
     NewOnAddresses := λ _ _, Ok ();
     GetPorts := ports;
     rangeOrder := map_to_list |}.

Definition appSelector : gmap string string := {[ "app" := "cockroachdb" ]}.

Definition onePort : list ForwardedPort := [{| Local := 26257; Remote := 26257 |}].
Definition twoPorts : list ForwardedPort :=
  [{| Local := 26257; Remote := 26257 |}; {| Local := 8080; Remote := 8080 |}].

(** Scenario D: the tunnel reports two bound ports. *)
Definition worldD : World := scenarioWorld appSelector (Ok twoPorts).

(** Scenario B: the service has no selector. *)
Definition worldB : World := scenarioWorld ∅ (Ok onePort).

(** The setup goroutine runs up to [<-readyCh] (7 statements), the forwarder
    closes [readyCh], the caller's [select] takes the readiness case, and
    only then the setup goroutine goes on to query the ports. *)
Definition readyFirst : list Move :=
  replicate 7 MSetup ++ [MForwardReady; MGateReady] ++ replicate 5 MSetup.

(** ** Further observations on scripts, traces and states *)

(** The log lines of a script, in order. *)
Fixpoint logs (script : list Action) : list (Level * string) :=
  match script with
  | [] => []
  | ALog lvl msg :: rest => (lvl, msg) :: logs rest
  | _ :: rest => logs rest
  end.

(** The place of a collaborator call in the source text: lines 44, 59, 80,
    88, 95, 100 and 118. *)
Definition callKind (c : Call) : nat :=
  match c with
  | CServicesGet _ _ => 0
  | CPodsList _ _ => 1
  | CUrlParse _ => 2
  | CRoundTripperFor _ => 3
  | CNewDialer _ => 4
  | CNewOnAddresses _ _ => 5
  | CGetPorts => 6
  end.

(** The watcher goroutine's own events in a trace. *)
Fixpoint watcherEvents (tr : list Event) : list Event :=
  match tr with
  | [] => []
  | EWatcherLog lvl msg :: rest => EWatcherLog lvl msg :: watcherEvents rest
  | ECloseStop :: rest => ECloseStop :: watcherEvents rest
  | _ :: rest => watcherEvents rest
  end.

(** What the watcher has done when it is in a given state (lines 36-38). *)
Definition watcherDone (x : Watcher) : list Event :=
  match x with
  | WClosing => [EWatcherLog LInfo "Stopping a forward process..."]
  | WDone => [EWatcherLog LInfo "Stopping a forward process..."; ECloseStop]
  | _ => []
  end.

(** No goroutine has panicked, [stopCh] is closed only once the watcher is
    through, and [readyCh] only once the forwarder has reported. *)
Definition calmInv (st : State) : Prop :=
  crashed st = None ∧
  (stopClosed st = true → watcher st = WDone) ∧
  (readyClosed st = true → forwarder st = FReady ∨ forwarder st = FExited).

(** The forwarder is gone without having reported, the setup goroutine sits
    in [<-readyCh] and the caller in its [select], with [errCh] empty and
    open. *)
Definition blockedInv (st : State) : Prop :=
  forwarder st = FExited ∧ readyClosed st = false ∧
  (∃ k, setup st = Some (ARecvReady :: k)) ∧
  gate st = GSelect ∧ errBuf st = [] ∧ errClosed st = false.

(** Scenario A with one bound port: every step passes. *)
Definition worldA : World := scenarioWorld appSelector (Ok onePort).

(** Scenario C: the listing returns no pod. *)
Definition worldC : World :=
  {| ServicesGet := λ ns _, Ok {| SvcNamespace := ns; SvcSelector := appSelector |};
     PodsList := λ _ _, Ok {| Items := [] |};
     urlParse := λ rawurl, Ok rawurl;
     RoundTripperFor := λ _, Ok ();
     NewOnAddresses := λ _ _, Ok ();
     GetPorts := Ok onePort;
     rangeOrder := map_to_list |}.

Definition scenarioCfg : RestConfig := {| Host := "https://k8s.example" |}.

(** The setup goroutine runs alone up to the end, then the caller receives. *)
Definition errorFirst : list Move :=
  replicate 7 MSetup ++ [MForwardReady] ++ replicate 5 MSetup ++ [MGateErr].

(** ** Proof steps used throughout *)

(** Closes a goal with a hypothesis [H : x ∈ [a; b; ...]] where [x] is none
    of the elements. *)
Ltac not_listed H :=
  repeat (apply elem_of_cons in H as [H|H]; [discriminate H|]);
  by apply elem_of_nil in H.

(** Reads off the successor state from [step m st = Some st']. *)
Ltac stepped :=
  match goal with
  | H : Some _ = Some _ |- _ => injection H as <-
  | H : None = Some _ |- _ => discriminate H
  end.

(** * Properties *)

(** ** Strings *)

Lemma string_app_nil_l (t : string) : "" +:+ t = t.
Proof. reflexivity. Qed.

Lemma string_app_cons (a : ascii) (s t : string) :
  String a s +:+ t = String a (s +:+ t).
Proof. reflexivity. Qed.

Lemma string_app_nil_r (s : string) : s +:+ "" = s.
Proof.
  induction s as [|a s IH]; [done|]. by rewrite string_app_cons, IH.
Qed.

Lemma string_app_assoc (s t u : string) : (s +:+ t) +:+ u = s +:+ t +:+ u.
Proof.
  induction s as [|a s IH]; [done|]. by rewrite !string_app_cons, IH.
Qed.

Lemma string_app_length (s t : string) :
  String.length (s +:+ t) = String.length s + String.length t.
Proof.
  induction s as [|a s IH]; [done|]. rewrite string_app_cons. cbn. by rewrite IH.
Qed.

Lemma count_char_app (c : ascii) (s t : string) :
  count_char c (s +:+ t) = count_char c s + count_char c t.
Proof.
  induction s as [|a s IH]; [done|]. rewrite string_app_cons. cbn.
  rewrite IH. lia.
Qed.

Lemma string_app_eq_nil (s t : string) : s +:+ t = "" → s = "" ∧ t = "".
Proof. destruct s; [done|]. rewrite string_app_cons. discriminate. Qed.

Lemma Sprintf_clause_nonempty (k v : string) : Sprintf_clause k v ≠ "".
Proof.
  unfold Sprintf_clause. intros [_ H]%string_app_eq_nil.
  rewrite string_app_cons in H. discriminate.
Qed.

Lemma concat_cons_cons (sep x y : string) (l : list string) :
  String.concat sep (x :: y :: l) = x +:+ sep +:+ String.concat sep (y :: l).
Proof. reflexivity. Qed.

Lemma concat_glue (sep a b : string) (l : list string) :
  String.concat sep ((a +:+ sep +:+ b) :: l)
  = a +:+ sep +:+ String.concat sep (b :: l).
Proof.
  destruct l as [|x l]; [done|].
  rewrite !concat_cons_cons. by rewrite !string_app_assoc.
Qed.

Lemma concat_length (sep : string) (l : list string) :
  String.length (String.concat sep l) + String.length sep
  = sum_list (String.length <$> l) + length l * String.length sep
    + (if l is [] then String.length sep else 0).
Proof.
  induction l as [|x l IH]; [cbn; lia|].
  destruct l as [|y l]; [cbn; lia|].
  rewrite concat_cons_cons, !string_app_length.
  cbn [fmap list_fmap sum_list sum_list_with length] in *. unfold id in *. lia.
Qed.

Lemma concat_count (c : ascii) (sep : string) (l : list string) :
  count_char c (String.concat sep l) + count_char c sep
  = sum_list (count_char c <$> l) + length l * count_char c sep
    + (if l is [] then count_char c sep else 0).
Proof.
  induction l as [|x l IH]; [cbn; lia|].
  destruct l as [|y l]; [cbn; lia|].
  rewrite concat_cons_cons, !count_char_app.
  cbn [fmap list_fmap sum_list sum_list_with length] in *. unfold id in *. lia.
Qed.

(** ** getPodName *)

Lemma getPodName_range_skip (pre rest : list Pod) :
  Forall (λ q, Phase q ≠ PodRunning) pre →
  getPodName_range (pre ++ rest) = getPodName_range rest.
Proof.
  induction 1 as [|q pre Hq _ IH]; [done|]. cbn.
  by destruct (String.eqb_spec (Phase q) PodRunning).
Qed.

Lemma getPodName_range_none (items : list Pod) :
  Forall (λ q, Phase q ≠ PodRunning) items →
  getPodName_range items = ("", Some (Errorf "no live pods behind the service")).
Proof.
  intros H. rewrite <- (app_nil_r items). by rewrite getPodName_range_skip.
Qed.

Lemma first_running_split (items : list Pod) :
  (∃ q, q ∈ items ∧ Phase q = PodRunning) →
  ∃ pre p post, items = pre ++ p :: post ∧
    Forall (λ q, Phase q ≠ PodRunning) pre ∧ Phase p = PodRunning.
Proof.
  induction items as [|x items IH]; intros (q & Hq & Hrun).
  - by apply elem_of_nil in Hq.
  - destruct (decide (Phase x = PodRunning)) as [Hx|Hx].
    + by exists [], x, items.
    + apply elem_of_cons in Hq as [->|Hq]; [done|].
      destruct IH as (pre & p & post & -> & Hpre & Hp); [by exists q|].
      exists (x :: pre), p, post. split_and!; [done | by constructor | done].
Qed.

(** C2. Whenever some candidate is Running, [getPodName] returns without
    error the name of the first Running candidate in input order: the pods
    before it are all not Running. *)
Theorem getPodName_first_running (pods : PodList) :
  (∃ q, q ∈ Items pods ∧ Phase q = PodRunning) →
  ∃ pre p post,
    Items pods = pre ++ p :: post ∧
    Forall (λ q, Phase q ≠ PodRunning) pre ∧
    Phase p = PodRunning ∧
    getPodName pods = (Name p, None).
Proof.
  intros (pre & p & post & Hsplit & Hpre & Hp)%first_running_split.
  exists pre, p, post. split_and!; [done..|].
  unfold getPodName. rewrite Hsplit, getPodName_range_skip by done.
  cbn. by rewrite Hp.
Qed.

(** Scenario A: for [p0 Pending; p1 Running] the result is ["p1"]. *)
Lemma getPodName_first_running_witness :
  (∃ q, q ∈ Items scenarioPods ∧ Phase q = PodRunning) ∧
  (∃ pre p post,
    Items scenarioPods = pre ++ p :: post ∧
    Forall (λ q, Phase q ≠ PodRunning) pre ∧
    Phase p = PodRunning ∧
    getPodName scenarioPods = (Name p, None)) ∧
  getPodName scenarioPods = ("p1", None).
Proof.
  assert (∃ q, q ∈ Items scenarioPods ∧ Phase q = PodRunning) as H.
  { exists pod1. split; [|reflexivity].
    cbn. apply elem_of_cons; right; apply elem_of_cons; by left. }
  split; [exact H|].
  split; [exact (getPodName_first_running scenarioPods H) | reflexivity].
Defined.

(** C3. [getPodName] fails exactly when the list is empty or has no
    Running candidate, and then it returns the empty name together with the
    "no live pods" error. *)
Theorem getPodName_error_iff (pods : PodList) :
  (snd (getPodName pods) ≠ None ↔
     Items pods = [] ∨ ∀ q, q ∈ Items pods → Phase q ≠ PodRunning) ∧
  (snd (getPodName pods) ≠ None →
     getPodName pods = ("", Some (Errorf "no live pods behind the service"))).
Proof.
  assert (snd (getPodName pods) ≠ None →
          ∀ q, q ∈ Items pods → Phase q ≠ PodRunning) as Hnone.
  { intros Herr q Hq Hrun.
    destruct (getPodName_first_running pods) as (? & p & ? & _ & _ & _ & Hget);
      [by exists q|].
    by rewrite Hget in Herr. }
  split; [split|].
  - intros Herr. right. by apply Hnone.
  - intros Hno. unfold getPodName. rewrite getPodName_range_none; [done|].
    apply Forall_forall. destruct Hno as [->|Hno]; [|done].
    by intros ? ?%elem_of_nil.
  - intros Herr. apply getPodName_range_none, Forall_forall. by apply Hnone.
Qed.

(** ** mapToSelectorStr *)

Lemma mapToSelectorStr_range_concat (entries : list (string * string)) (acc : string) :
  acc ≠ "" →
  mapToSelectorStr_range acc entries
  = String.concat "," (acc :: ((λ kv, Sprintf_clause kv.1 kv.2) <$> entries)).
Proof.
  revert acc. induction entries as [|[k v] entries IH]; intros acc Hacc; [done|].
  cbn [mapToSelectorStr_range].
  destruct (String.eqb_spec acc "") as [->|_]; [done|].
  cbn [negb]. rewrite IH.
  - rewrite string_app_assoc. cbn [fmap list_fmap fst snd].
    by rewrite concat_glue, concat_cons_cons.
  - rewrite string_app_assoc. intros [? _]%string_app_eq_nil. done.
Qed.

Lemma mapToSelectorStr_range_join (entries : list (string * string)) :
  mapToSelectorStr_range "" entries
  = String.concat "," ((λ kv, Sprintf_clause kv.1 kv.2) <$> entries).
Proof.
  destruct entries as [|[k v] entries]; [done|].
  cbn [mapToSelectorStr_range String.eqb negb]. rewrite string_app_nil_l.
  apply mapToSelectorStr_range_concat, Sprintf_clause_nonempty.
Qed.

Lemma mapToSelectorStr_empty_iff (order : gmap string string → list (string * string))
    (msel : gmap string string) :
  order msel ≡ₚ map_to_list msel →
  mapToSelectorStr order msel = "" ↔ msel = ∅.
Proof.
  intros Hperm. unfold mapToSelectorStr. split.
  - destruct (order msel) as [|[k v] entries] eqn:Hord.
    + intros _. apply map_to_list_empty_iff.
      apply Permutation_nil_l in Hperm. by rewrite <- Hperm.
    + rewrite mapToSelectorStr_range_join. cbn [fmap list_fmap fst snd].
      destruct entries as [|kv entries]; cbn [fmap list_fmap].
      * intros H. by apply Sprintf_clause_nonempty in H.
      * rewrite concat_cons_cons. intros [H _]%string_app_eq_nil.
        by apply Sprintf_clause_nonempty in H.
  - intros ->. rewrite map_to_list_empty in Hperm.
    apply Permutation_nil_r in Hperm. by rewrite Hperm.
Qed.

(** C4. Whatever order the runtime ranges over the mapping in: with no
    entries the selector is the empty string; with N ≥ 1 entries it is the
    N clauses [key=value], one per entry and unescaped, separated by commas,
    so that N−1 commas are added to the characters of the clauses and none
    stands before the first or after the last clause. *)
Theorem mapToSelectorStr_clauses (order : gmap string string → list (string * string))
    (msel : gmap string string) :
  order msel ≡ₚ map_to_list msel →
  (size msel = 0 → mapToSelectorStr order msel = "") ∧
  (1 ≤ size msel →
   ∃ clauses : list string,
     length clauses = size msel ∧
     clauses ≡ₚ (λ kv, kv.1 +:+ "=" +:+ kv.2) <$> map_to_list msel ∧
     mapToSelectorStr order msel = String.concat "," clauses ∧
     String.length (mapToSelectorStr order msel)
       = sum_list (String.length <$> clauses) + (size msel - 1) ∧
     count_char "," (mapToSelectorStr order msel)
       = sum_list (count_char "," <$> clauses) + (size msel - 1)).
Proof.
  intros Hperm.
  assert (length (order msel) = size msel) as Hlen.
  { by rewrite Hperm, length_map_to_list. }
  split.
  - intros H0. apply map_size_empty_iff in H0.
    by apply mapToSelectorStr_empty_iff.
  - intros HN.
    exists ((λ kv, Sprintf_clause kv.1 kv.2) <$> order msel).
    assert (mapToSelectorStr order msel
            = String.concat "," ((λ kv, Sprintf_clause kv.1 kv.2) <$> order msel))
      as Hjoin by apply mapToSelectorStr_range_join.
    split_and!.
    + by rewrite length_fmap.
    + by rewrite Hperm.
    + done.
    + rewrite Hjoin.
      pose proof (concat_length "," ((λ kv, Sprintf_clause kv.1 kv.2) <$> order msel)) as H.
      rewrite length_fmap, Hlen in H.
      destruct (order msel) as [|kv l]; cbn in Hlen, H |- *; [lia|].
      cbn in H. lia.
    + rewrite Hjoin.
      pose proof (concat_count "," "," ((λ kv, Sprintf_clause kv.1 kv.2) <$> order msel)) as H.
      rewrite length_fmap, Hlen in H.
      destruct (order msel) as [|kv l]; cbn in Hlen, H |- *; [lia|].
      cbn in H. lia.
Qed.

(** The mapping [{app: cockroachdb}] gives ["app=cockroachdb"]. *)
Lemma mapToSelectorStr_clauses_witness :
  map_to_list appSelector ≡ₚ map_to_list appSelector ∧
  1 ≤ size appSelector ∧
  ∃ clauses : list string,
    length clauses = size appSelector ∧
    clauses ≡ₚ (λ kv, kv.1 +:+ "=" +:+ kv.2) <$> map_to_list appSelector ∧
    mapToSelectorStr map_to_list appSelector = String.concat "," clauses ∧
    String.length (mapToSelectorStr map_to_list appSelector)
      = sum_list (String.length <$> clauses) + (size appSelector - 1) ∧
    count_char "," (mapToSelectorStr map_to_list appSelector)
      = sum_list (count_char "," <$> clauses) + (size appSelector - 1).
Proof.
  assert (1 ≤ size appSelector) as H1 by (vm_compute; lia).
  split; [reflexivity|]. split; [exact H1|].
  exact (proj2 (mapToSelectorStr_clauses map_to_list appSelector
                  (reflexivity (map_to_list appSelector))) H1).
Defined.

(** ** convertToString *)

Lemma convertToString_range_strings (l : list string) (i : nat) (val : list string) :
  length val = i + length l →
  convertToString_range i (VString <$> l) val = Returned (take i val ++ l).
Proof.
  revert i val. induction l as [|s l IH]; intros i val Hlen; cbn in *.
  - rewrite app_nil_r, take_ge by lia. done.
  - rewrite IH by (rewrite length_insert; lia).
    rewrite (take_S_r _ _ s) by (apply list_lookup_insert_eq; lia).
    rewrite take_insert_ge by lia. by rewrite <- app_assoc.
Qed.

Lemma convertToString_range_panics (raw_list : list GoValue) (i : nat)
    (val : list string) :
  ¬ Forall isString raw_list →
  ∃ msg, convertToString_range i raw_list val = Panicked msg.
Proof.
  revert i val. induction raw_list as [|raw rest IH]; intros i val Hnot.
  - destruct Hnot. constructor.
  - destruct raw as [s| | |]; cbn; eauto.
    apply IH. intros Hrest. apply Hnot. constructor; [by exists s | done].
Qed.

Lemma all_strings_fmap (raw_list : list GoValue) :
  Forall isString raw_list → ∃ l : list string, raw_list = VString <$> l.
Proof.
  induction 1 as [|raw rest [s ->] _ [l ->]]; [by exists [] | by exists (s :: l)].
Qed.

(** C9. On a list of strings [convertToString] returns the same strings in
    the same order (hence as many); on a list with an element that is not a
    string the type assertion panics and nothing is returned. *)
Theorem convertToString_strings_or_panic (raw_list : list GoValue) :
  (Forall isString raw_list →
   ∃ val, convertToString raw_list = Returned val ∧
          length val = length raw_list ∧
          VString <$> val = raw_list) ∧
  (¬ Forall isString raw_list →
   ∃ msg, convertToString raw_list = Panicked msg).
Proof.
  split.
  - intros [l ->]%all_strings_fmap. exists l. unfold convertToString.
    rewrite convertToString_range_strings
      by (by rewrite length_replicate, length_fmap).
    cbn. by rewrite length_fmap.
  - apply convertToString_range_panics.
Qed.

(** [["a"; "b"]] converts, [["a"; 7]] panics. *)
Lemma convertToString_strings_or_panic_witness :
  (Forall isString [VString "a"; VString "b"] ∧
   ∃ val, convertToString [VString "a"; VString "b"] = Returned val ∧
          length val = 2 ∧
          VString <$> val = [VString "a"; VString "b"]) ∧
  (¬ Forall isString [VString "a"; VInt 7] ∧
   ∃ msg, convertToString [VString "a"; VInt 7] = Panicked msg).
Proof.
  assert (Forall isString [VString "a"; VString "b"]) as Hs.
  { repeat constructor; eexists; reflexivity. }
  assert (¬ Forall isString [VString "a"; VInt 7]) as Hn.
  { intros H. inversion H as [|? ? _ H2]. inversion H2 as [|? ? [s Hs'] _].
    discriminate Hs'. }
  split.
  - split; [exact Hs|].
    exact (proj1 (convertToString_strings_or_panic _) Hs).
  - split; [exact Hn|].
    exact (proj2 (convertToString_strings_or_panic _) Hn).
Defined.

(** ** contains *)

(** C10. [contains elems v] is true exactly when some element of [elems]
    equals [v]; on the empty list it is false. *)
Theorem contains_iff (elems : list string) (v : string) :
  (contains elems v = true ↔ v ∈ elems) ∧ contains [] v = false.
Proof.
  split; [|done].
  induction elems as [|s elems IH]; cbn.
  - split; [done | by intros ?%elem_of_nil].
  - rewrite elem_of_cons. destruct (String.eqb_spec v s) as [->|Hne].
    + split; [by left | done].
    + rewrite IH. split; [by right | by intros [?|?]].
Qed.

(** ** The script of the setup goroutine *)

Lemma sends_app (a b : list Action) : sends (a ++ b) = sends a ++ sends b.
Proof.
  induction a as [|x a IH]; [done|]. destruct x; cbn; by rewrite ?IH.
Qed.

Lemma calls_app (a b : list Action) : calls (a ++ b) = calls a ++ calls b.
Proof.
  induction a as [|x a IH]; [done|]. destruct x; cbn; by rewrite ?IH.
Qed.

Lemma performed_app (a b : list Event) :
  performed (a ++ b) = performed a ++ performed b.
Proof.
  induction a as [|x a IH]; [done|]. destruct x; cbn; by rewrite ?IH.
Qed.

Lemma sends_calls (pre : list Action) : Forall isCall pre → sends pre = [].
Proof. induction 1 as [|[] ? ? _ IH]; done. Qed.

Lemma calls_only (pre : list Action) (a : Action) :
  Forall isCall pre → a ∈ pre → isCall a.
Proof. intros H Ha. by eapply Forall_forall in H. Qed.

Section Script.
Variables (w : World) (cfg : RestConfig).
Variables (ns name rport lport : string).

Local Abbreviation script := (setupSequence w cfg ns name rport lport).
Local Abbreviation selectorOf svc := (mapToSelectorStr (rangeOrder w) (SvcSelector svc)).

Lemma script_picks (livePod : string) :
  picks w ns name livePod →
  ∃ pre, Forall isCall pre ∧ (CGetPorts ∉ calls pre) ∧
    script = pre ++ startTunnel w cfg ns rport lport livePod.
Proof.
  intros (svc & pods & Hsvc & Hsel & Hlist & Hitems & Hpick).
  exists [ACall (CServicesGet ns name);
          ACall (CPodsList (SvcNamespace svc) (selectorOf svc))].
  split_and!; [by repeat constructor | intros H; cbn in H; not_listed H |].
  unfold setupSequence. rewrite Hsvc.
  destruct (String.eqb_spec (selectorOf svc) "") as [|_]; [done|].
  rewrite Hlist.
  destruct (Nat.eqb_spec (length (Items pods)) 0) as [H0|_].
  { by apply nil_length_inv in H0. }
  by rewrite Hpick.
Qed.

Lemma script_tunnels (livePod : string) :
  tunnels w cfg ns name rport lport livePod →
  ∃ pre, Forall isCall pre ∧ (CGetPorts ∉ calls pre) ∧
    script = pre ++ AGoForward :: ARecvReady :: afterReady w lport rport livePod.
Proof.
  intros (Hpick & [url Hurl] & [u Hrt] & [u' Hnew]).
  destruct (script_picks livePod Hpick) as (pre & Hpre & Hno & ->).
  exists (pre ++ [ACall (CUrlParse (serverURLString (Host cfg) ns livePod));
                  ACall (CRoundTripperFor cfg);
                  ACall (CNewDialer url);
                  ACall (CNewOnAddresses ["127.0.0.1"] [lport +:+ ":" +:+ rport])]).
  split_and!.
  - apply Forall_app. split; [done|]. by repeat constructor.
  - rewrite calls_app, elem_of_app. intros [H|H]; [done|].
    cbn in H. not_listed H.
  - rewrite <- app_assoc. f_equal.
    unfold startTunnel. rewrite Hurl, Hrt, Hnew. reflexivity.
Qed.

(** A failure before readiness: only calls, then log, send, close. *)
Lemma script_fails_before (e : error) :
  FailsBeforeReady w cfg ns name rport lport e →
  ∃ pre msg, Forall isCall pre ∧ script = pre ++ abort msg e.
Proof.
  destruct 1 as [err Hsvc|svc Hsvc Hsel|svc err Hsvc Hsel Hlist
                |svc pods Hsvc Hsel Hlist Hitems
                |svc pods err Hsvc Hsel Hlist Hitems Hpick
                |livePod err Hpick Hurl
                |livePod url err Hpick Hurl Hrt
                |livePod url u err Hpick Hurl Hrt Hnew].
  - eexists [ACall _], _. split; [|unfold setupSequence; by rewrite Hsvc].
    by repeat constructor.
  - eexists [ACall _], _.
    split; [|unfold setupSequence; rewrite Hsvc, Hsel; reflexivity].
    by repeat constructor.
  - eexists [ACall _; ACall _], _. split; [by repeat constructor|].
    unfold setupSequence. rewrite Hsvc.
    destruct (String.eqb_spec (selectorOf svc) "") as [|_]; [done|].
    by rewrite Hlist.
  - eexists [ACall _; ACall _], _. split; [by repeat constructor|].
    unfold setupSequence. rewrite Hsvc.
    destruct (String.eqb_spec (selectorOf svc) "") as [|_]; [done|].
    rewrite Hlist, Hitems. reflexivity.
  - eexists [ACall _; ACall _], _. split; [by repeat constructor|].
    unfold setupSequence. rewrite Hsvc.
    destruct (String.eqb_spec (selectorOf svc) "") as [|_]; [done|].
    rewrite Hlist.
    destruct (Nat.eqb_spec (length (Items pods)) 0) as [H0|_].
    { by apply nil_length_inv in H0. }
    destruct (getPodName pods) as [n o]. cbn in Hpick. subst o. reflexivity.
  - destruct (script_picks livePod Hpick) as (pre & Hpre & _ & ->).
    eexists (pre ++ [ACall _]), _. split.
    { apply Forall_app. split; [done|]. by repeat constructor. }
    rewrite <- app_assoc. f_equal. unfold startTunnel. by rewrite Hurl.
  - destruct (script_picks livePod Hpick) as (pre & Hpre & _ & ->).
    eexists (pre ++ [ACall _; ACall _]), _. split.
    { apply Forall_app. split; [done|]. by repeat constructor. }
    rewrite <- app_assoc. f_equal. unfold startTunnel. by rewrite Hurl, Hrt.
  - destruct (script_picks livePod Hpick) as (pre & Hpre & _ & ->).
    eexists (pre ++ [ACall _; ACall _; ACall _; ACall _]), _. split.
    { apply Forall_app. split; [done|]. by repeat constructor. }
    rewrite <- app_assoc. f_equal. unfold startTunnel.
    by rewrite Hurl, Hrt, Hnew.
Qed.

(** A failure after readiness: calls, the forwarder, the wait, the port
    query, then log, send, close. *)
Lemma script_fails_after (e : error) :
  FailsAfterReady w cfg ns name rport lport e →
  ∃ pre msg, Forall isCall pre ∧ script = pre ++ awaitThen (abort msg e).
Proof.
  destruct 1 as [livePod err Htun Hports|livePod ports Htun Hports Hlen].
  - destruct (script_tunnels livePod Htun) as (pre & Hpre & _ & ->).
    exists pre. eexists. split; [done|]. f_equal.
    unfold awaitThen, afterReady. by rewrite Hports.
  - destruct (script_tunnels livePod Htun) as (pre & Hpre & _ & ->).
    exists pre. eexists. split; [done|]. f_equal.
    unfold awaitThen, afterReady. rewrite Hports.
    destruct (Nat.eqb_spec (length ports) 1); [done|]. reflexivity.
Qed.

Lemma script_passes (livePod : string) :
  allStepsPass w cfg ns name rport lport livePod →
  ∃ pre, Forall isCall pre ∧
    script = pre ++ awaitThen
               [ALog LInfo (establishedMsg lport rport livePod); ACloseErr].
Proof.
  intros (Htun & ports & Hports & Hlen).
  destruct (script_tunnels livePod Htun) as (pre & Hpre & _ & ->).
  exists pre. split; [done|]. f_equal.
  unfold awaitThen, afterReady. by rewrite Hports, Hlen.
Qed.

(** Every attempt is of exactly one of the three kinds. *)
Lemma attempt_cases :
  (∃ e, FailsBeforeReady w cfg ns name rport lport e)
  ∨ (∃ e, FailsAfterReady w cfg ns name rport lport e)
  ∨ (∃ livePod, allStepsPass w cfg ns name rport lport livePod).
Proof.
  destruct (ServicesGet w ns name) as [svc|err] eqn:Hsvc;
    [|left; eexists; by eapply fails_service].
  destruct (decide (selectorOf svc = "")) as [Hsel|Hsel];
    [left; eexists; by eapply fails_selector|].
  destruct (PodsList w (SvcNamespace svc) (selectorOf svc)) as [pods|err] eqn:Hlist;
    [|left; eexists; by eapply fails_list].
  destruct (decide (Items pods = [])) as [Hitems|Hitems];
    [left; eexists; by eapply fails_candidates|].
  destruct (getPodName pods) as [livePod [err|]] eqn:Hpick;
    [left; eexists; eapply fails_pick; eauto; by rewrite Hpick|].
  assert (picks w ns name livePod) as Hp by (by exists svc, pods).
  destruct (urlParse w (serverURLString (Host cfg) ns livePod)) as [url|err] eqn:Hurl;
    [|left; eexists; by eapply fails_url].
  destruct (RoundTripperFor w cfg) as [u|err] eqn:Hrt;
    [|left; eexists; by eapply fails_transport].
  destruct (NewOnAddresses w ["127.0.0.1"] [lport +:+ ":" +:+ rport]) as [u'|err] eqn:Hnew;
    [|left; eexists; by eapply fails_tunnel].
  assert (tunnels w cfg ns name rport lport livePod) as Ht.
  { split_and!; eauto. }
  right.
  destruct (GetPorts w) as [ports|err] eqn:Hports;
    [|left; eexists; by eapply fails_query].
  destruct (decide (length ports = 1)) as [Hlen|Hlen].
  - right. exists livePod. split; [done|]. by exists ports.
  - left. eexists. by eapply fails_count.
Qed.

Lemma sends_fails_before (e : error) :
  FailsBeforeReady w cfg ns name rport lport e → sends script = [e].
Proof.
  intros (pre & msg & Hpre & ->)%script_fails_before.
  by rewrite sends_app, sends_calls.
Qed.

Lemma sends_fails_after (e : error) :
  FailsAfterReady w cfg ns name rport lport e → sends script = [e].
Proof.
  intros (pre & msg & Hpre & ->)%script_fails_after.
  by rewrite sends_app, sends_calls.
Qed.

Lemma sends_fails (e : error) :
  StepFails w cfg ns name rport lport e → sends script = [e].
Proof. intros [?|?]; [by apply sends_fails_before | by apply sends_fails_after]. Qed.

Lemma sends_passes (livePod : string) :
  allStepsPass w cfg ns name rport lport livePod → sends script = [].
Proof.
  intros (pre & Hpre & ->)%script_passes.
  by rewrite sends_app, sends_calls.
Qed.

Lemma sends_at_most_one : length (sends script) ≤ 1.
Proof.
  destruct attempt_cases as [[e H]|[[e H]|[p H]]].
  - by rewrite (sends_fails_before e H).
  - by rewrite (sends_fails_after e H).
  - rewrite (sends_passes p H). cbn. lia.
Qed.

(** The deferred [close(errCh)] is the last statement of every path, and
    the only close. *)
Lemma script_ends_with_close :
  ∃ body, script = body ++ [ACloseErr] ∧ ACloseErr ∉ body.
Proof.
  assert (∀ pre, Forall isCall pre → ACloseErr ∉ pre) as Hcalls.
  { intros pre Hpre Hin. by apply (calls_only pre _ Hpre) in Hin. }
  destruct attempt_cases as [[e H]|[[e H]|[p H]]].
  - apply script_fails_before in H as (pre & msg & Hpre & ->).
    exists (pre ++ [ALog LError msg; ASend e]). split.
    + by rewrite <- app_assoc.
    + rewrite elem_of_app. intros [Hin|Hin]; [by eapply Hcalls|].
      not_listed Hin.
  - apply script_fails_after in H as (pre & msg & Hpre & ->).
    exists (pre ++ [AGoForward; ARecvReady; ACall CGetPorts; ALog LError msg; ASend e]).
    split.
    + by rewrite <- app_assoc.
    + rewrite elem_of_app. intros [Hin|Hin]; [by eapply Hcalls|].
      not_listed Hin.
  - apply script_passes in H as (pre & Hpre & ->).
    eexists (pre ++ [AGoForward; ARecvReady; ACall CGetPorts; ALog LInfo _]).
    split.
    + by rewrite <- app_assoc.
    + rewrite elem_of_app. intros [Hin|Hin]; [by eapply Hcalls|].
      not_listed Hin.
Qed.
End Script.

(** ** Executions *)

Lemma run_app (s1 s2 : list Move) (st : State) :
  run (s1 ++ s2) st = run s1 st ≫= run s2.
Proof.
  revert st. induction s1 as [|m s1 IH]; intros st; [done|].
  cbn. destruct (step m st); [apply IH | done].
Qed.

Section Attempt.
Variables (script : list Action) (ready0 : bool).
Hypothesis one_send : length (sends script) ≤ 1.

Lemma sends_prefix_short (past rest : list Action) :
  script = past ++ rest → length (sends past) + length (sends rest) ≤ 1.
Proof.
  intros Hs. rewrite Hs, sends_app, length_app in one_send. lia.
Qed.

Lemma attemptInv_panic (msg : string) (st : State) :
  attemptInv script ready0 st → attemptInv script ready0 (panic msg st).
Proof. done. Qed.

(** The caller's part of the invariant survives every step that leaves the
    gate and the buffer alone and adds no send. *)
Lemma gateInv_keep (past past' : list Action) (st st' : State) :
  gate st' = gate st → errBuf st' = errBuf st → sends past' = sends past →
  (readyClosed st = true → readyClosed st' = true) →
  (ACloseErr ∈ past → ACloseErr ∈ past') →
  gateInv past st → gateInv past' st'.
Proof.
  unfold gateInv. intros -> -> -> Hready Hclose Hg.
  destruct (gate st) as [|d]; [done|].
  destruct Hg as [(-> & Hbuf & Hwhy)|Hg]; [left|by right].
  split_and!; [done..|]. destruct Hwhy as [?|[? ?]]; [left|right]; auto.
Qed.

Lemma elem_of_snoc_other (past : list Action) (a x : Action) :
  x ≠ a → x ∈ past ++ [a] ↔ x ∈ past.
Proof.
  intros Hx. rewrite elem_of_app, list_elem_of_singleton.
  split; [intros [?|?]; [done | congruence] | by left].
Qed.

Lemma elem_of_snoc_old (past : list Action) (a x : Action) :
  x ∈ past → x ∈ past ++ [a].
Proof. intros ?. apply elem_of_app. by left. Qed.

Lemma elem_of_snoc_new (past : list Action) (a : Action) : a ∈ past ++ [a].
Proof. apply elem_of_app. right. by apply list_elem_of_singleton. Qed.

Lemma attemptInv_setup (st st' : State) :
  attemptInv script ready0 st → stepSetup st = Some st' →
  attemptInv script ready0 st'.
Proof.
  intros Hinv Hstep. pose proof Hinv as Hinv0.
  destruct Hinv as (past & rest & Hs & Hset & Hperf & Hcl & Hg & Hfw & Hrd & Hrr).
  unfold stepSetup in Hstep. rewrite Hset in Hstep.
  destruct rest as [|a k]; [done|].
  pose proof (sends_prefix_short _ _ Hs) as Hshort.
  assert (script = (past ++ [a]) ++ k) as Hs' by (by rewrite <- app_assoc).
  destruct a as [c|lvl msg|e| | |].
  - (* a call *)
    stepped. exists (past ++ [ACall c]), k. split_and!; try done.
    + cbn. by rewrite performed_app, Hperf.
    + by rewrite elem_of_snoc_other.
    + apply (gateInv_keep past _ st);
        [done | done | rewrite sends_app; apply app_nil_r | done
        | apply elem_of_snoc_old | done].
    + intros H. by apply elem_of_snoc_old, Hfw.
    + rewrite elem_of_snoc_other by done. apply Hrr.
  - (* a log line *)
    stepped. exists (past ++ [ALog lvl msg]), k. split_and!; try done.
    + cbn. by rewrite performed_app, Hperf.
    + by rewrite elem_of_snoc_other.
    + apply (gateInv_keep past _ st);
        [done | done | rewrite sends_app; apply app_nil_r | done
        | apply elem_of_snoc_old | done].
    + intros H. by apply elem_of_snoc_old, Hfw.
    + rewrite elem_of_snoc_other by done. apply Hrr.
  - (* errCh <- e *)
    destruct (errClosed st) eqn:Hclosed; [stepped; by apply attemptInv_panic|].
    destruct (decide (length (errBuf st) < errCap)) as [Hroom|]; [|done].
    stepped. exists (past ++ [ASend e]), k. split_and!; try done.
    + cbn. by rewrite performed_app, Hperf.
    + cbn. by rewrite elem_of_snoc_other.
    + unfold gateInv in *. cbn. rewrite sends_app. cbn.
      cbn in Hshort. destruct (gate st) as [|d].
      * by rewrite Hg.
      * destruct Hg as [(-> & Hbuf & Hwhy)|(e0 & _ & Hone & _)].
        -- left. split_and!; [done | by rewrite Hbuf |].
           destruct Hwhy as [?|[Hin _]]; [by left|].
           apply Hcl in Hin. congruence.
        -- rewrite Hone in Hshort. cbn in Hshort. lia.
    + intros H. by apply elem_of_snoc_old, Hfw.
    + rewrite elem_of_snoc_other by done. apply Hrr.
  - (* go pf.ForwardPorts() *)
    stepped. exists (past ++ [AGoForward]), k. split_and!; try done.
    + cbn. by rewrite performed_app, Hperf.
    + by rewrite elem_of_snoc_other.
    + apply (gateInv_keep past _ st);
        [done | done | rewrite sends_app; apply app_nil_r | done
        | apply elem_of_snoc_old | done].
    + intros _. apply elem_of_snoc_new.
    + intros _. by right.
    + rewrite elem_of_snoc_other by done. apply Hrr.
  - (* <-readyCh *)
    destruct (readyClosed st) eqn:Hready; [|done].
    stepped. exists (past ++ [ARecvReady]), k. split_and!; try done.
    + cbn. by rewrite performed_app, Hperf.
    + by rewrite elem_of_snoc_other.
    + apply (gateInv_keep past _ st);
        [done | done | rewrite sends_app; apply app_nil_r | done
        | apply elem_of_snoc_old | done].
    + intros H. by apply elem_of_snoc_old, Hfw.
    + intros _. by apply Hrd.
  - (* close(errCh) *)
    destruct (errClosed st) eqn:Hclosed; [stepped; by apply attemptInv_panic|].
    stepped. exists (past ++ [ACloseErr]), k. split_and!; try done.
    + cbn. by rewrite performed_app, Hperf.
    + cbn. split; [intros _; apply elem_of_snoc_new | done].
    + apply (gateInv_keep past _ st);
        [done | done | rewrite sends_app; apply app_nil_r | done
        | apply elem_of_snoc_old | done].
    + intros H. by apply elem_of_snoc_old, Hfw.
    + rewrite elem_of_snoc_other by done. apply Hrr.
Qed.

Lemma attemptInv_step (m : Move) (st st' : State) :
  attemptInv script ready0 st → step m st = Some st' →
  attemptInv script ready0 st'.
Proof.
  intros Hinv Hstep. unfold step in Hstep. pose proof Hinv as Hinv0.
  destruct (crashed st); [done|].
  destruct Hinv as (past & rest & Hs & Hset & Hperf & Hcl & Hg & Hfw & Hrd & Hrr).
  destruct m.
  - by eapply attemptInv_setup.
  - destruct (watcher st); by stepped.
  - destruct (watcher st); try stepped.
    + exists past, rest. cbn. rewrite performed_app, app_nil_r. by split_and!.
    + destruct (stopClosed st); stepped; [by apply attemptInv_panic|].
      exists past, rest. cbn. rewrite performed_app, app_nil_r. by split_and!.
  - destruct (forwarder st) eqn:Hf; try stepped.
    destruct (readyClosed st) eqn:Hready; stepped; [by apply attemptInv_panic|].
    exists past, rest. split_and!; try done.
    + cbn. by rewrite performed_app, app_nil_r.
    + by apply (gateInv_keep past _ st).
    + intros _. by apply Hfw.
    + intros _. by right.
  - destruct (forwarder st) eqn:Hf; try stepped.
    + exists past, rest. split_and!; try done.
      * intros _. by apply Hfw.
      * intros _. by right.
    + exists past, rest. split_and!; try done.
      * intros _. by apply Hfw.
      * intros _. by right.
  - unfold gateInv in Hg.
    destruct (gate st) eqn:Hgate; [|done].
    destruct (readyClosed st) eqn:Hready; try stepped.
    exists past, rest. split_and!; try done.
    + cbn. by rewrite !performed_app, !app_nil_r.
    + unfold gateInv. cbn. left. split_and!; [done..|by left].
    + intros _. by apply Hrd.
  - unfold gateInv in Hg.
    destruct (gate st) eqn:Hgate; [|done].
    pose proof (sends_prefix_short _ _ Hs) as Hshort.
    destruct (errBuf st) as [|e buf] eqn:Hbuf.
    + destruct (errClosed st) eqn:Hclosed; try stepped.
      exists past, rest. split_and!; try done.
      * cbn. by rewrite !performed_app, !app_nil_r.
      * cbn. by rewrite Hclosed.
      * unfold gateInv. cbn. left. split_and!; [done | by rewrite Hbuf |].
        right. split; [by apply Hcl | done].
    + stepped. exists past, rest.
      rewrite <- Hg in Hshort. cbn in Hshort.
      destruct buf; [|cbn in Hshort; lia].
      split_and!; try done.
      * cbn. by rewrite !performed_app, !app_nil_r.
      * unfold gateInv. cbn. right. by exists e.
Qed.

Lemma attemptInv_run (sched : list Move) (st st' : State) :
  attemptInv script ready0 st → run sched st = Some st' →
  attemptInv script ready0 st'.
Proof.
  revert st. induction sched as [|m sched IH]; intros st Hinv Hrun; cbn in Hrun.
  - by stepped.
  - destruct (step m st) as [st1|] eqn:Hstep; [|done].
    eapply IH; [|done]. by eapply attemptInv_step.
Qed.
End Attempt.

(** ** A configured attempt *)

Section Configured.
Variables (w : World) (conn : kubeConn) (cfg : RestConfig).
Variables (stopCh readyCh : bool) (localPort : string).
Hypothesis configured : kubeConfig conn = Some cfg.

Local Abbreviation script :=
  (setupSequence w cfg (nameSpace conn) (serviceName conn) (remotePort conn)
     localPort).
Local Abbreviation attempt :=
  (tryPortForwardIfNeeded w conn stopCh readyCh localPort).

Lemma attempt_configured :
  attempt =
    {| errBuf := []; errClosed := false;
       stopClosed := stopCh; readyClosed := readyCh;
       setup := Some script;
       watcher := WWaiting; forwarder := FNotSpawned;
       gate := GSelect; crashed := None; trace := [] |}.
Proof. unfold tryPortForwardIfNeeded. by rewrite configured. Qed.

Lemma attemptInv_init : attemptInv script readyCh attempt.
Proof.
  rewrite attempt_configured. exists [], script. cbn.
  split_and!; try done.
  - split; [done | by intros ?%elem_of_nil].
  - intros ->. by left.
  - by intros ?%elem_of_nil.
Qed.

Lemma attemptInv_reachable (sched : list Move) (st : State) :
  run sched attempt = Some st → attemptInv script readyCh st.
Proof.
  apply attemptInv_run; [apply sends_at_most_one | apply attemptInv_init].
Qed.

(** What the setup goroutine has done so far is a prefix of its script. *)
Lemma performed_prefix (sched : list Move) (st : State) :
  run sched attempt = Some st →
  ∃ rest, script = performed (trace st) ++ rest ∧ setup st = Some rest.
Proof.
  intros (past & rest & Hs & Hset & Hperf & _)%attemptInv_reachable.
  exists rest. by rewrite Hperf.
Qed.

Lemma sentErrors_prefix (sched : list Move) (st : State) :
  run sched attempt = Some st →
  ∃ later, sends script = sentErrors st ++ later.
Proof.
  intros (rest & Hs & _)%performed_prefix. exists (sends rest).
  unfold sentErrors. by rewrite <- sends_app, <- Hs.
Qed.

Lemma callsMade_prefix (sched : list Move) (st : State) :
  run sched attempt = Some st →
  ∃ later, calls script = callsMade st ++ later.
Proof.
  intros (rest & Hs & _)%performed_prefix. exists (calls rest).
  unfold callsMade. by rewrite <- calls_app, <- Hs.
Qed.

(** The forwarder runs only if the script spawns it, and [readyCh] is closed
    only by the forwarder (or by the caller beforehand). *)
Lemma forwarder_not_spawned (sched : list Move) (st : State) :
  run sched attempt = Some st → AGoForward ∉ script →
  forwarder st = FNotSpawned ∧ (readyCh = false → readyClosed st = false).
Proof.
  intros (past & rest & Hs & _ & _ & _ & _ & Hfw & Hrd & _)%attemptInv_reachable Hno.
  assert (forwarder st = FNotSpawned) as Hf.
  { destruct (forwarder st); [done|exfalso..];
      apply Hno; rewrite Hs; apply elem_of_app; left; by apply Hfw. }
  split; [done|]. intros ->.
  destruct (readyClosed st); [|done]. by destruct Hrd as [?|?].
Qed.

(** Where an execution stands with respect to the port query: either the
    setup goroutine has not got past [<-readyCh] and has sent nothing, or it
    has made the query, and then [readyCh] is closed. *)
Lemma port_query_position (sched : list Move) (st : State)
    (pre tail : list Action) :
  run sched attempt = Some st →
  script = pre ++ awaitThen tail → Forall isCall pre →
  (∃ k, pre ++ [AGoForward; ARecvReady] = performed (trace st) ++ k)
  ∨ (∃ k, performed (trace st) = pre ++ awaitThen k ∧ readyClosed st = true).
Proof.
  intros Hrun Hscript Hpre.
  destruct (attemptInv_reachable _ _ Hrun)
    as (past & rest & Hs & _ & Hperf & _ & _ & _ & _ & Hrr).
  rewrite Hperf. rewrite Hscript in Hs. unfold awaitThen in *.
  change (pre ++ AGoForward :: ARecvReady :: ACall CGetPorts :: tail)
    with (pre ++ [AGoForward; ARecvReady] ++ ACall CGetPorts :: tail) in Hs.
  rewrite app_assoc in Hs. symmetry in Hs.
  apply app_eq_inv in Hs as [(k & Hpast & Hrest)|(k & Hpast & Hrest)].
  - destruct k as [|x k].
    + left. exists []. by rewrite app_nil_r in *.
    + right. injection Hrest as <- _. exists k.
      rewrite Hpast, <- app_assoc. split; [done|].
      apply Hrr. rewrite Hpast, !elem_of_app. left. right.
      apply elem_of_cons. right. by apply elem_of_cons; left.
  - left. by exists k.
Qed.

Lemma finished_performed_all (sched : list Move) (st : State) :
  run sched attempt = Some st → setup st = Some [] →
  performed (trace st) = script.
Proof.
  intros (rest & Hs & Hset)%performed_prefix Hdone.
  rewrite Hset in Hdone. injection Hdone as ->. by rewrite app_nil_r in Hs.
Qed.
End Configured.

(** ** The guard *)

Lemma returned_is_stuck_when_idle (m : Move) (st : State) :
  setup st = None → watcher st = WNotSpawned → forwarder st = FNotSpawned →
  (∃ d, gate st = GReturned d) → step m st = None.
Proof.
  intros Hset Hw Hf [d Hg]. unfold step, stepSetup.
  destruct (crashed st); [done|].
  destruct m; by rewrite ?Hset, ?Hw, ?Hf, ?Hg.
Qed.

Lemma returned_runs_nothing_when_idle (sched : list Move) (st st' : State) :
  setup st = None → watcher st = WNotSpawned → forwarder st = FNotSpawned →
  (∃ d, gate st = GReturned d) → run sched st = Some st' → st' = st.
Proof.
  intros Hset Hw Hf Hg Hrun. destruct sched as [|m sched]; cbn [run] in Hrun.
  - by injection Hrun.
  - by rewrite returned_is_stuck_when_idle in Hrun.
Qed.

(** C7. With a nil [kubeConfig] the call returns nil diagnostics at once:
    no collaborator is called, no goroutine is spawned, nothing is logged,
    the caller's [stopCh] and [readyCh] are as they were handed in, and no
    schedule makes anything happen afterwards. *)
Theorem unconfigured_is_noop (w : World) (conn : kubeConn)
    (stopCh readyCh : bool) (localPort : string) :
  kubeConfig conn = None →
  let st := tryPortForwardIfNeeded w conn stopCh readyCh localPort in
  gate st = GReturned [] ∧
  callsMade st = [] ∧ trace st = [] ∧
  setup st = None ∧ watcher st = WNotSpawned ∧ forwarder st = FNotSpawned ∧
  stopClosed st = stopCh ∧ readyClosed st = readyCh ∧
  crashed st = None ∧
  ∀ sched st', run sched st = Some st' → st' = st.
Proof.
  intros Hnil. unfold tryPortForwardIfNeeded. rewrite Hnil. cbn.
  split_and!; try done.
  intros sched st'. apply returned_runs_nothing_when_idle; try done. by eexists.
Qed.

Lemma unconfigured_is_noop_witness :
  kubeConfig unconfiguredConn = None ∧
  let st := tryPortForwardIfNeeded worldD unconfiguredConn false false "26257" in
  gate st = GReturned [] ∧
  callsMade st = [] ∧ trace st = [] ∧
  setup st = None ∧ watcher st = WNotSpawned ∧ forwarder st = FNotSpawned ∧
  stopClosed st = false ∧ readyClosed st = false ∧
  crashed st = None ∧
  ∀ sched st', run sched st = Some st' → st' = st.
Proof.
  split; [reflexivity|].
  exact (unconfigured_is_noop worldD unconfiguredConn false false "26257"
           (eq_refl : kubeConfig unconfiguredConn = None)).
Defined.

(** ** The port query *)

Lemma before_query_quiet (pre past k : list Action) :
  Forall isCall pre → CGetPorts ∉ calls pre →
  pre ++ [AGoForward; ARecvReady] = past ++ k →
  sends past = [] ∧ (CGetPorts ∉ calls past) ∧ ¬ successLogged past.
Proof.
  intros Hpre Hno Heq. split_and!.
  - apply (f_equal sends) in Heq. rewrite !sends_app, sends_calls in Heq by done.
    cbn in Heq. symmetry in Heq. by apply app_eq_nil in Heq as [? _].
  - intros Hin. apply Hno.
    apply (f_equal calls) in Heq. rewrite !calls_app in Heq. cbn in Heq.
    rewrite app_nil_r in Heq. rewrite Heq. apply elem_of_app. by left.
  - intros [msg Hin].
    assert (ALog LInfo msg ∈ pre ++ [AGoForward; ARecvReady]) as Hin'.
    { rewrite Heq. apply elem_of_app. by left. }
    apply elem_of_app in Hin' as [Hin'|Hin']; [|not_listed Hin'].
    by apply (calls_only pre _ Hpre) in Hin'.
Qed.

Lemma successLogged_app (a b : list Action) :
  successLogged (a ++ b) ↔ successLogged a ∨ successLogged b.
Proof.
  unfold successLogged. split.
  - intros [msg [?|?]%elem_of_app]; [left | right]; by exists msg.
  - intros [[msg ?]|[msg ?]]; exists msg; apply elem_of_app; [by left | by right].
Qed.

Lemma successLogged_calls (pre : list Action) :
  Forall isCall pre → ¬ successLogged pre.
Proof. intros Hpre [msg Hin]. by apply (calls_only pre _ Hpre) in Hin. Qed.

(** C6. Once the tunnel has been created, the setup goroutine queries the
    bound ports only after [readyCh] is closed. If the query errs it sends
    the "failed to get port-forward ports" error, if it returns a number of
    ports other than one it sends the "unexpected number of forwarded ports"
    error, and the success line is logged exactly when the query returns
    one port. In every execution: the query is made with [readyCh] closed,
    an error is sent only after the query, the success line is logged only
    after a query that returned one port, and when the goroutine has
    finished it has sent what its script says. *)
Theorem ports_checked_after_ready (w : World) (conn : kubeConn)
    (cfg : RestConfig) (stopCh : bool) (localPort livePod : string) :
  kubeConfig conn = Some cfg →
  tunnels w cfg (nameSpace conn) (serviceName conn) (remotePort conn)
    localPort livePod →
  let script := setupSequence w cfg (nameSpace conn) (serviceName conn)
                  (remotePort conn) localPort in
  (∀ err, GetPorts w = Err err → sends script = [PortQueryFailed err]) ∧
  (∀ ports, GetPorts w = Ok ports → length ports ≠ 1 →
     sends script = [UnexpectedPortCount (length ports)]) ∧
  (successLogged script ↔ ∃ ports, GetPorts w = Ok ports ∧ length ports = 1) ∧
  ∀ sched st,
    run sched (tryPortForwardIfNeeded w conn stopCh false localPort) = Some st →
    (CGetPorts ∈ callsMade st →
       readyClosed st = true ∧ forwarder st ≠ FNotSpawned) ∧
    (sentErrors st ≠ [] → CGetPorts ∈ callsMade st) ∧
    (successLogged (performed (trace st)) →
       CGetPorts ∈ callsMade st ∧
       ∃ ports, GetPorts w = Ok ports ∧ length ports = 1) ∧
    (setup st = Some [] → sentErrors st = sends script).
Proof.
  intros Hcfg Htun script.
  destruct (script_tunnels w cfg _ _ _ _ _ Htun) as (pre & Hpre & Hno & Hscript).
  fold script in Hscript.
  assert (successLogged script ↔ ∃ ports, GetPorts w = Ok ports ∧ length ports = 1)
    as Hlogged.
  { rewrite Hscript, successLogged_app. unfold afterReady. split.
    - intros [Hin|[msg Hin]]; [by apply successLogged_calls in Hin|].
      destruct (GetPorts w) as [ports|err].
      + destruct (Nat.eqb_spec (length ports) 1) as [Hlen|Hlen]; [by exists ports|].
        cbn in Hin. not_listed Hin.
      + cbn in Hin. not_listed Hin.
    - intros (ports & -> & ->). right. eexists. cbn.
      do 3 (apply elem_of_cons; right). apply elem_of_cons. by left. }
  split_and!.
  - intros err Hports. subst script. apply sends_fails_after.
    by eapply fails_query.
  - intros ports Hports Hlen. subst script. apply sends_fails_after.
    by eapply fails_count.
  - done.
  - intros sched st Hrun.
    assert (∃ tail, script = pre ++ awaitThen tail) as [tail Htail].
    { rewrite Hscript. unfold afterReady, awaitThen. by eexists. }
    pose proof (port_query_position w conn cfg _ _ _ Hcfg _ _ pre tail Hrun Htail Hpre)
      as Hpos.
    destruct (attemptInv_reachable w conn cfg _ _ _ Hcfg _ _ Hrun)
      as (past & rest & Hs & _ & Hperf & _ & _ & _ & Hrd & _).
    split_and!.
    + intros Hcall. destruct Hpos as [[k Hk]|[k [Hk Hready]]].
      * by apply (before_query_quiet _ _ _ Hpre Hno) in Hk as (_ & ? & _).
      * split; [done|]. by destruct (Hrd Hready).
    + intros Hsent. destruct Hpos as [[k Hk]|[k [Hk Hready]]].
      * by apply (before_query_quiet _ _ _ Hpre Hno) in Hk as (? & _ & _).
      * unfold callsMade. rewrite Hk, calls_app. apply elem_of_app. right.
        cbn. apply elem_of_cons. by left.
    + intros Hlog. split.
      * destruct Hpos as [[k Hk]|[k [Hk Hready]]].
        -- by apply (before_query_quiet _ _ _ Hpre Hno) in Hk as (_ & _ & ?).
        -- unfold callsMade. rewrite Hk, calls_app. apply elem_of_app. right.
           cbn. apply elem_of_cons. by left.
      * apply Hlogged. fold script in Hs. rewrite Hs, successLogged_app.
        left. by rewrite <- Hperf.
    + intros Hdone. unfold sentErrors.
      by rewrite (finished_performed_all w conn cfg _ _ _ Hcfg _ _ Hrun Hdone).
Qed.

Lemma scenarioD_tunnels :
  tunnels worldD {| Host := "https://k8s.example" |} "db" "cockroachdb-public"
    "26257" "26257" "p1".
Proof.
  split_and!.
  - exists {| SvcNamespace := "db"; SvcSelector := appSelector |}, scenarioPods.
    split_and!; [reflexivity | by vm_compute | reflexivity | done | reflexivity].
  - by eexists.
  - by eexists.
  - by eexists.
Qed.

Lemma scenarioD_fails :
  StepFails worldD {| Host := "https://k8s.example" |} "db"
    "cockroachdb-public" "26257" "26257" (UnexpectedPortCount 2).
Proof.
  right. apply (fails_count _ _ _ _ _ _ "p1" twoPorts);
    [apply scenarioD_tunnels | reflexivity | cbn; lia].
Qed.

(** Scenario D: two bound ports. *)
Lemma ports_checked_after_ready_witness :
  kubeConfig scenarioConn = Some {| Host := "https://k8s.example" |} ∧
  tunnels worldD {| Host := "https://k8s.example" |} "db" "cockroachdb-public"
    "26257" "26257" "p1" ∧
  GetPorts worldD = Ok twoPorts ∧ length twoPorts ≠ 1 ∧
  sends (setupSequence worldD {| Host := "https://k8s.example" |} "db"
           "cockroachdb-public" "26257" "26257")
  = [UnexpectedPortCount 2] ∧
  ¬ successLogged (setupSequence worldD {| Host := "https://k8s.example" |} "db"
                     "cockroachdb-public" "26257" "26257").
Proof.
  pose proof scenarioD_tunnels as Htun.
  assert (length twoPorts ≠ 1) as Hlen by (cbn; lia).
  pose proof (ports_checked_after_ready worldD scenarioConn
                {| Host := "https://k8s.example" |} false "26257" "p1"
                eq_refl Htun) as (_ & Hcount & Hlogged & _).
  split_and!; [reflexivity | exact Htun | reflexivity | exact Hlen
              | exact (Hcount twoPorts eq_refl Hlen) |].
  intros (ports & Hports & Hone)%Hlogged. injection Hports as <-. by apply Hlen.
Defined.

(** ** The error signal *)

Lemma sends_nil_cons (x : Action) (l : list Action) :
  sends (x :: l) = [] → sends l = [] ∧ ∀ e, x ≠ ASend e.
Proof. destruct x; cbn; intros H; by split. Qed.

(** With no send before either of them, two sends in a script are the same
    statement. *)
Lemma send_position (l1 l2 k1 k2 : list Action) (e1 e2 : error) :
  sends l1 = [] → sends l2 = [] →
  l1 ++ ASend e1 :: k1 = l2 ++ ASend e2 :: k2 →
  e1 = e2 ∧ k1 = k2.
Proof.
  revert l2. induction l1 as [|x l1 IH]; intros [|y l2] H1 H2 Heq; cbn in Heq.
  - by injection Heq.
  - injection Heq as <- _. discriminate H2.
  - injection Heq as -> _. discriminate H1.
  - injection Heq as _ Heq. apply sends_nil_cons in H1 as [H1 _].
    apply sends_nil_cons in H2 as [H2 _]. by eapply IH.
Qed.

Section ErrorSignal.
Variables (w : World) (cfg : RestConfig).
Variables (ns name rport lport : string).

Local Abbreviation script := (setupSequence w cfg ns name rport lport).

Lemma sends_none_unless_fails :
  (∀ e, ¬ StepFails w cfg ns name rport lport e) → sends script = [].
Proof.
  intros Hnone.
  destruct (attempt_cases w cfg ns name rport lport) as [[e H]|[[e H]|[p H]]].
  - destruct (Hnone e). by left.
  - destruct (Hnone e). by right.
  - by eapply sends_passes.
Qed.

(** Every [errCh <- err] is followed by [return]: only the deferred close
    remains, and nothing was sent before. *)
Lemma send_is_last (past k : list Action) (e : error) :
  script = past ++ ASend e :: k → k = [ACloseErr] ∧ sends past = [].
Proof.
  intros Hs.
  assert (sends past = []) as Hpast.
  { pose proof (sends_at_most_one w cfg ns name rport lport) as Hle.
    rewrite Hs, sends_app, length_app in Hle. cbn in Hle.
    destruct (sends past); [done | cbn in Hle; lia]. }
  split; [|done].
  destruct (attempt_cases w cfg ns name rport lport) as [[e' H]|[[e' H]|[p H]]].
  - apply script_fails_before in H as (pre & msg & Hpre & Hscript).
    rewrite Hscript in Hs. unfold abort in Hs.
    change (pre ++ [ALog LError msg; ASend e'; ACloseErr])
      with (pre ++ [ALog LError msg] ++ ASend e' :: [ACloseErr]) in Hs.
    rewrite app_assoc in Hs. symmetry in Hs.
    apply send_position in Hs as [_ ->]; [done..|].
    by rewrite sends_app, sends_calls.
  - apply script_fails_after in H as (pre & msg & Hpre & Hscript).
    rewrite Hscript in Hs. unfold abort, awaitThen in Hs.
    change (pre ++ [AGoForward; ARecvReady; ACall CGetPorts;
                    ALog LError msg; ASend e'; ACloseErr])
      with (pre ++ [AGoForward; ARecvReady; ACall CGetPorts; ALog LError msg]
                ++ ASend e' :: [ACloseErr]) in Hs.
    rewrite app_assoc in Hs. symmetry in Hs.
    apply send_position in Hs as [_ ->]; [done..|].
    by rewrite sends_app, sends_calls.
  - apply sends_passes in H. rewrite Hs, sends_app in H.
    by apply app_eq_nil in H as [_ ?].
Qed.
End ErrorSignal.

(** C8. [errCh] has a buffer of one. The setup goroutine's script has at
    most one send, every send is followed by nothing but the deferred close,
    a failing attempt's script has exactly one send (of that failure) and a
    passing one's has none. Accordingly, in every execution at most one
    error has been sent; whenever the goroutine is about to send, the buffer
    is empty and the channel open, so the send goes through at once; and
    when the goroutine of a failing attempt has finished, exactly that one
    error has been sent. *)
Theorem error_sent_at_most_once (w : World) (conn : kubeConn)
    (cfg : RestConfig) (stopCh readyCh : bool) (localPort : string) :
  kubeConfig conn = Some cfg →
  let script := setupSequence w cfg (nameSpace conn) (serviceName conn)
                  (remotePort conn) localPort in
  let fails := StepFails w cfg (nameSpace conn) (serviceName conn)
                 (remotePort conn) localPort in
  errCap = 1 ∧
  length (sends script) ≤ 1 ∧
  (∀ past e k, script = past ++ ASend e :: k → k = [ACloseErr]) ∧
  (∀ e, fails e → sends script = [e]) ∧
  ((∀ e, ¬ fails e) → sends script = []) ∧
  ∀ sched st,
    run sched (tryPortForwardIfNeeded w conn stopCh readyCh localPort) = Some st →
    length (sentErrors st) ≤ 1 ∧
    (∀ e k, setup st = Some (ASend e :: k) → crashed st = None →
       errBuf st = [] ∧ errClosed st = false ∧
       ∃ st', step MSetup st = Some st' ∧ crashed st' = None ∧
              errBuf st' = [e] ∧ sentErrors st' = [e] ∧
              setup st' = Some [ACloseErr]) ∧
    (∀ e, fails e → setup st = Some [] → sentErrors st = [e]) ∧
    ((∀ e, ¬ fails e) → sentErrors st = []).
Proof.
  intros Hcfg script fails. subst script fails.
  pose proof (sends_at_most_one w cfg (nameSpace conn) (serviceName conn)
                (remotePort conn) localPort) as Hone.
  split_and!; [done | done | | | |].
  - intros past e k Hs. by apply (send_is_last _ _ _ _ _ _ _ _ _ Hs).
  - intros e He. by apply sends_fails.
  - apply sends_none_unless_fails.
  - intros sched st Hrun.
    destruct (sentErrors_prefix w conn cfg _ _ _ Hcfg _ _ Hrun) as [later Hsent].
    split_and!.
    + rewrite Hsent, length_app in Hone. lia.
    + intros e k Hset Hlive.
      destruct (attemptInv_reachable w conn cfg _ _ _ Hcfg _ _ Hrun)
        as (past & rest & Hs & Hset' & Hperf & Hcl & Hg & _).
      rewrite Hset in Hset'. injection Hset' as <-.
      destruct (send_is_last _ _ _ _ _ _ _ _ _ Hs) as [-> Hpast].
      assert (errClosed st = false) as Hopen.
      { destruct (errClosed st); [|done].
        destruct (script_ends_with_close w cfg (nameSpace conn) (serviceName conn)
                    (remotePort conn) localPort) as (body & Hbody & Hnot).
        rewrite Hs in Hbody.
        change (past ++ [ASend e; ACloseErr])
          with (past ++ [ASend e] ++ [ACloseErr]) in Hbody.
        rewrite app_assoc in Hbody. apply app_inj_tail in Hbody as [<- _].
        destruct Hnot. apply elem_of_app. left. by apply Hcl. }
      assert (errBuf st = []) as Hbuf.
      { unfold gateInv in Hg. destruct (gate st).
        - by rewrite Hg.
        - destruct Hg as [(_ & -> & _)|(? & _ & _ & ?)]; done. }
      split_and!; [done..|].
      unfold step, stepSetup. rewrite Hlive, Hset, Hopen, Hbuf. cbn.
      eexists. split; [done|]. cbn. split_and!; try done.
      unfold sentErrors. cbn. by rewrite performed_app, sends_app, Hperf, Hpast.
    + intros e He Hdone. unfold sentErrors.
      rewrite (finished_performed_all w conn cfg _ _ _ Hcfg _ _ Hrun Hdone).
      by apply sends_fails.
    + intros Hnone.
      rewrite (sends_none_unless_fails _ _ _ _ _ _ Hnone) in Hsent.
      symmetry in Hsent. by apply app_eq_nil in Hsent as [? _].
Qed.

(** Scenario D, run to the end after readiness: one error was sent. *)
Lemma error_sent_at_most_once_witness :
  kubeConfig scenarioConn = Some {| Host := "https://k8s.example" |} ∧
  StepFails worldD {| Host := "https://k8s.example" |} "db"
    "cockroachdb-public" "26257" "26257" (UnexpectedPortCount 2) ∧
  sends (setupSequence worldD {| Host := "https://k8s.example" |} "db"
           "cockroachdb-public" "26257" "26257") = [UnexpectedPortCount 2] ∧
  ∃ st,
    run readyFirst (tryPortForwardIfNeeded worldD scenarioConn false false "26257")
      = Some st ∧
    setup st = Some [] ∧
    sentErrors st = [UnexpectedPortCount 2].
Proof.
  assert (kubeConfig scenarioConn = Some {| Host := "https://k8s.example" |})
    as Hcfg by reflexivity.
  pose proof scenarioD_fails as Hfails.
  pose proof (error_sent_at_most_once worldD scenarioConn
                {| Host := "https://k8s.example" |} false false "26257" Hcfg)
    as (_ & _ & _ & Hsends & _ & Hruns).
  split_and!; [exact Hcfg | exact Hfails | exact (Hsends _ Hfails) |].
  destruct (run readyFirst
              (tryPortForwardIfNeeded worldD scenarioConn false false "26257"))
    as [st|] eqn:Hrun; [|by vm_compute in Hrun].
  exists st.
  assert (setup st = Some []) as Hdone.
  { vm_compute in Hrun. by injection Hrun as <-. }
  split_and!; [done | exact Hdone |].
  destruct (Hruns readyFirst st Hrun) as (_ & _ & Hfin & _).
  exact (Hfin _ Hfails Hdone).
Defined.

(** ** What the caller gets *)

Lemma returned_stays (m : Move) (st st' : State) (d : Diagnostics) :
  gate st = GReturned d → step m st = Some st' → gate st' = GReturned d.
Proof.
  intros Hg Hstep. unfold step, stepSetup in Hstep.
  destruct (crashed st); [done|].
  destruct m; repeat case_match; try stepped; try done; congruence.
Qed.

Lemma returned_for_good (sched : list Move) (st st' : State) (d : Diagnostics) :
  gate st = GReturned d → run sched st = Some st' → gate st' = GReturned d.
Proof.
  revert st. induction sched as [|m sched IH]; intros st Hg Hrun; cbn [run] in Hrun.
  - by injection Hrun as <-.
  - destruct (step m st) as [st1|] eqn:Hstep; [|done].
    eapply IH; [|done]. by eapply returned_stays.
Qed.

(** C1, at the failing input. In Scenario D (two bound ports) step 10 fails
    with the "unexpected number of forwarded ports" error. In the execution
    where the caller's [select] is served as soon as the forwarder closes
    [readyCh], the caller has returned nil diagnostics before the setup
    goroutine queries the ports: the error is sent on [errCh] and stays in
    its buffer, never received, and the caller's result remains success
    whatever happens next. *)
Theorem late_error_is_lost :
  StepFails worldD {| Host := "https://k8s.example" |} "db"
    "cockroachdb-public" "26257" "26257" (UnexpectedPortCount 2) ∧
  ∃ st,
    run readyFirst (tryPortForwardIfNeeded worldD scenarioConn false false "26257")
      = Some st ∧
    gate st = GReturned [] ∧
    setup st = Some [] ∧
    sentErrors st = [UnexpectedPortCount 2] ∧
    errBuf st = [UnexpectedPortCount 2] ∧
    crashed st = None ∧
    ∀ sched st', run sched st = Some st' → gate st' = GReturned [].
Proof.
  split; [apply scenarioD_fails|].
  destruct (run readyFirst
              (tryPortForwardIfNeeded worldD scenarioConn false false "26257"))
    as [st|] eqn:Hrun; [|by vm_compute in Hrun].
  exists st. vm_compute in Hrun. injection Hrun as <-.
  split_and!; try reflexivity.
  intros sched st'. by apply returned_for_good.
Qed.

(** The setup goroutine can always run through a stretch of calls, which
    touches nothing but its own position and the trace. *)
Lemma run_calls (pre rest : list Action) (st : State) :
  Forall isCall pre → setup st = Some (pre ++ rest) → crashed st = None →
  ∃ st', run (replicate (length pre) MSetup) st = Some st' ∧
         setup st' = Some rest ∧ errBuf st' = errBuf st ∧
         errClosed st' = errClosed st ∧ gate st' = gate st ∧
         crashed st' = None ∧ readyClosed st' = readyClosed st.
Proof.
  intros Hpre. revert st.
  induction Hpre as [|x pre Hx _ IH]; intros st Hset Hlive.
  - exists st. by split_and!.
  - destruct x as [c| | | | |]; try done.
    destruct (IH (emit (ESetup (ACall c)) (setSetup (pre ++ rest) st)))
      as (st' & Hrun & ? & ? & ? & ? & ? & ?); [done..|].
    exists st'. split_and!; try done.
    cbn [length replicate run]. unfold step, stepSetup.
    by rewrite Hlive, Hset.
Qed.

(** From the point of an [abort] on, with the channel fresh and the caller
    still in its [select]: log, send, close, and the caller receives. *)
Lemma run_abort (msg : string) (e : error) (st : State) :
  setup st = Some (abort msg e) → errBuf st = [] → errClosed st = false →
  gate st = GSelect → crashed st = None →
  ∃ st', run [MSetup; MSetup; MSetup; MGateErr] st = Some st' ∧
         gate st' = GReturned (FromErr (Some e)).
Proof.
  destruct st as [buf cl stop rdy set wt fw g cr tr].
  cbn [setup errBuf errClosed gate crashed].
  intros -> -> -> -> ->.
  destruct (run _ _) as [st'|] eqn:Hrun; [|by vm_compute in Hrun].
  exists st'. split; [done|].
  vm_compute in Hrun. by injection Hrun as <-.
Qed.

(** From the creation of the tunnel on, with the caller in its [select] and
    [readyCh] open: the forwarder is spawned and closes [readyCh], the caller
    takes the readiness case, and the rest of the script runs to its end. *)
Lemma run_await_abort (msg : string) (e : error) (st : State) :
  setup st = Some (awaitThen (abort msg e)) →
  errBuf st = [] → errClosed st = false → readyClosed st = false →
  gate st = GSelect → crashed st = None →
  ∃ st', run ([MSetup; MForwardReady; MGateReady] ++ replicate 5 MSetup) st
           = Some st' ∧
         gate st' = GReturned [] ∧ errBuf st' = [e] ∧ setup st' = Some [].
Proof.
  destruct st as [buf cl stop rdy set wt fw g cr tr].
  cbn [setup errBuf errClosed readyClosed gate crashed].
  intros -> -> -> -> -> ->.
  destruct (run _ _) as [st'|] eqn:Hrun; [|by vm_compute in Hrun].
  exists st'. split; [done|].
  vm_compute in Hrun. by injection Hrun as <-.
Qed.

Section Caller.
Variables (w : World) (conn : kubeConn) (cfg : RestConfig).
Variables (stopCh : bool) (localPort : string).
Hypothesis configured : kubeConfig conn = Some cfg.

Local Abbreviation script :=
  (setupSequence w cfg (nameSpace conn) (serviceName conn) (remotePort conn)
     localPort).
Local Abbreviation attempt :=
  (tryPortForwardIfNeeded w conn stopCh false localPort).
Local Abbreviation failsEarly :=
  (FailsBeforeReady w cfg (nameSpace conn) (serviceName conn) (remotePort conn)
     localPort).
Local Abbreviation failsLate :=
  (FailsAfterReady w cfg (nameSpace conn) (serviceName conn) (remotePort conn)
     localPort).

(** A failure of steps 1-7 is what the caller gets, if it gets anything: the
    readiness case of the [select] is never enabled, and the error is in the
    buffer before [errCh] is closed. *)
Lemma early_failure_is_returned (e : error) (sched : list Move) (st : State)
    (d : Diagnostics) :
  failsEarly e → run sched attempt = Some st → gate st = GReturned d →
  d = FromErr (Some e) ∧ sentErrors st = [e].
Proof.
  intros Hfail Hrun Hgate.
  pose proof (sends_fails_before _ _ _ _ _ _ _ Hfail) as Hsends.
  destruct (script_fails_before _ _ _ _ _ _ _ Hfail) as (pre & msg & Hpre & Hscript).
  assert (readyClosed st = false) as Hready.
  { apply (forwarder_not_spawned w conn cfg _ _ _ configured _ _ Hrun); [|done].
    rewrite Hscript. intros [Hin|Hin]%elem_of_app; [|not_listed Hin].
    by apply (calls_only pre _ Hpre) in Hin. }
  destruct (attemptInv_reachable w conn cfg _ _ _ configured _ _ Hrun)
    as (past & rest & Hs & _ & Hperf & _ & Hg & _).
  unfold gateInv in Hg. rewrite Hgate in Hg.
  assert (sends script = sends past ++ sends rest) as Hsplit.
  { by rewrite Hs, sends_app. }
  rewrite Hsends in Hsplit.
  destruct Hg as [(_ & _ & [Hr|[Hin Hnone]])|(e0 & -> & Hone & _)].
  - congruence.
  - exfalso.
    destruct (script_ends_with_close w cfg (nameSpace conn) (serviceName conn)
                (remotePort conn) localPort) as (body & Hbody & Hnot).
    rewrite Hs in Hbody.
    apply app_eq_inv in Hbody as [(k & Hpast & Hk)|(k & Hpast & _)].
    + destruct k as [|x k].
      * apply Hnot. by rewrite Hpast, app_nil_r in Hin.
      * injection Hk as _ Hk. symmetry in Hk.
        apply app_eq_nil in Hk as [_ ->]. by rewrite Hnone in Hsplit.
    + apply Hnot. rewrite Hpast. apply elem_of_app. by left.
  - rewrite Hone in Hsplit. injection Hsplit as -> _.
    split; [done|]. unfold sentErrors. by rewrite Hperf.
Qed.

(** And the caller does get it: run the setup goroutine to its end, then
    let the [select] receive. *)
Lemma early_failure_can_return (e : error) :
  failsEarly e →
  ∃ sched st, run sched attempt = Some st ∧ gate st = GReturned (FromErr (Some e)).
Proof.
  intros Hfail.
  destruct (script_fails_before _ _ _ _ _ _ _ Hfail) as (pre & msg & Hpre & Hscript).
  pose proof (attempt_configured w conn cfg stopCh false localPort configured)
    as Hinit.
  destruct (run_calls pre (abort msg e) attempt Hpre)
    as (st1 & Hrun1 & Hset1 & Hbuf1 & Hcl1 & Hg1 & Hlive1 & _).
  { rewrite Hinit. cbn [setup]. by rewrite Hscript. }
  { by rewrite Hinit. }
  rewrite Hinit in Hbuf1, Hcl1, Hg1. cbn [errBuf errClosed gate] in Hbuf1, Hcl1, Hg1.
  destruct (run_abort msg e st1) as (st2 & Hrun2 & Hg2); [done..|].
  exists (replicate (length pre) MSetup ++ [MSetup; MSetup; MSetup; MGateErr]), st2.
  by rewrite run_app, Hrun1.
Qed.

(** A failure of step 10 is sent only when [readyCh] is closed already: the
    readiness case of the caller's [select] is enabled no later than the
    error case. *)
Lemma late_failure_follows_readiness (e : error) (sched : list Move) (st : State) :
  failsLate e → run sched attempt = Some st → sentErrors st ≠ [] →
  readyClosed st = true.
Proof.
  intros Hfail Hrun Hsent.
  destruct (script_fails_after _ _ _ _ _ _ _ Hfail) as (pre & msg & Hpre & Hscript).
  destruct (port_query_position w conn cfg _ _ _ configured _ _ pre _ Hrun Hscript Hpre)
    as [[k Hk]|[k [_ Hready]]]; [|done].
  destruct Hsent. unfold sentErrors.
  apply (f_equal sends) in Hk. rewrite !sends_app, sends_calls in Hk by done.
  cbn in Hk. symmetry in Hk. by apply app_eq_nil in Hk as [? _].
Qed.

(** And it is lost whenever the caller is served first: the caller returns
    nil diagnostics and the error stays in the buffer. *)
Lemma late_failure_can_be_lost (e : error) :
  failsLate e →
  ∃ sched st, run sched attempt = Some st ∧
    gate st = GReturned [] ∧ setup st = Some [] ∧
    sentErrors st = [e] ∧ errBuf st = [e].
Proof.
  intros Hfail.
  destruct (script_fails_after _ _ _ _ _ _ _ Hfail) as (pre & msg & Hpre & Hscript).
  pose proof (attempt_configured w conn cfg stopCh false localPort configured)
    as Hinit.
  destruct (run_calls pre (awaitThen (abort msg e)) attempt Hpre)
    as (st1 & Hrun1 & Hset1 & Hbuf1 & Hcl1 & Hg1 & Hlive1 & Hrd1).
  { rewrite Hinit. cbn [setup]. by rewrite Hscript. }
  { by rewrite Hinit. }
  rewrite Hinit in Hbuf1, Hcl1, Hg1, Hrd1.
  cbn [errBuf errClosed gate readyClosed] in Hbuf1, Hcl1, Hg1, Hrd1.
  destruct (run_await_abort msg e st1) as (st2 & Hrun2 & Hg2 & Hbuf2 & Hset2);
    [done..|].
  assert (run (replicate (length pre) MSetup
               ++ [MSetup; MForwardReady; MGateReady] ++ replicate 5 MSetup)
            attempt = Some st2) as Hrun.
  { rewrite run_app, Hrun1. exact Hrun2. }
  eexists _, st2. split_and!; [exact Hrun | done..| | done].
  unfold sentErrors.
  rewrite (finished_performed_all w conn cfg _ _ _ configured _ _ Hrun Hset2).
  by apply sends_fails_after.
Qed.
End Caller.

(** ** An empty selector *)

Lemma elem_of_prefix_of {A} (x : A) (l past later : list A) :
  l = past ++ later → x ∈ past → x ∈ l.
Proof. intros -> ?. apply elem_of_app. by left. Qed.

(** C5. When the resolved service has an empty label mapping, the setup
    goroutine consists of the service lookup, the error log, the send of the
    "has no selector" error and the deferred close. In every execution the
    only call ever made is the service lookup (no pod listing, no tunnel
    creation), the forwarder is never spawned, nothing but that error is
    sent, and once the goroutine has finished that error has been sent.
    When [readyCh] is handed in open, whatever the caller gets back is the
    diagnostic of that error, and there is an execution in which it gets
    it. *)
Theorem empty_selector_aborts (w : World) (conn : kubeConn) (cfg : RestConfig)
    (svc : Service) (stopCh readyCh : bool) (localPort : string) :
  rangeVisitsOnce w →
  kubeConfig conn = Some cfg →
  ServicesGet w (nameSpace conn) (serviceName conn) = Ok svc →
  SvcSelector svc = ∅ →
  mapToSelectorStr (rangeOrder w) (SvcSelector svc) = "" ∧
  FailsBeforeReady w cfg (nameSpace conn) (serviceName conn) (remotePort conn)
    localPort (EmptySelector (serviceName conn)) ∧
  setupSequence w cfg (nameSpace conn) (serviceName conn) (remotePort conn)
    localPort
  = [ACall (CServicesGet (nameSpace conn) (serviceName conn));
     ALog LError ("failed to get service selector: service "
                  +:+ serviceName conn +:+ " has no selector");
     ASend (EmptySelector (serviceName conn));
     ACloseErr] ∧
  (readyCh = false →
   ∃ sched st,
     run sched (tryPortForwardIfNeeded w conn stopCh readyCh localPort) = Some st ∧
     gate st = GReturned (FromErr (Some (EmptySelector (serviceName conn))))) ∧
  ∀ sched st,
    run sched (tryPortForwardIfNeeded w conn stopCh readyCh localPort) = Some st →
    (∀ c, c ∈ callsMade st →
          c = CServicesGet (nameSpace conn) (serviceName conn)) ∧
    forwarder st = FNotSpawned ∧
    (∀ e, e ∈ sentErrors st → e = EmptySelector (serviceName conn)) ∧
    (setup st = Some [] → sentErrors st = [EmptySelector (serviceName conn)]) ∧
    (readyCh = false → ∀ d, gate st = GReturned d →
       d = FromErr (Some (EmptySelector (serviceName conn)))).
Proof.
  intros Hrange Hcfg Hsvc Hempty.
  assert (mapToSelectorStr (rangeOrder w) (SvcSelector svc) = "") as Hsel.
  { by apply mapToSelectorStr_empty_iff. }
  assert (setupSequence w cfg (nameSpace conn) (serviceName conn)
            (remotePort conn) localPort
          = [ACall (CServicesGet (nameSpace conn) (serviceName conn));
             ALog LError ("failed to get service selector: service "
                          +:+ serviceName conn +:+ " has no selector");
             ASend (EmptySelector (serviceName conn));
             ACloseErr]) as Hscript.
  { unfold setupSequence. rewrite Hsvc, Hsel. reflexivity. }
  split_and!; [done | by eapply fails_selector | done | |].
  { intros ->.
    apply (early_failure_can_return w conn cfg stopCh localPort Hcfg).
    by eapply fails_selector. }
  intros sched st Hrun. split_and!.
  - intros c Hc.
    destruct (callsMade_prefix w conn cfg _ _ _ Hcfg _ _ Hrun) as [later Hcalls].
    rewrite Hscript in Hcalls. cbn in Hcalls.
    eapply elem_of_prefix_of in Hc; [|done]. by apply list_elem_of_singleton in Hc.
  - apply (forwarder_not_spawned w conn cfg _ _ _ Hcfg _ _ Hrun).
    rewrite Hscript. intros H. not_listed H.
  - intros e He.
    destruct (sentErrors_prefix w conn cfg _ _ _ Hcfg _ _ Hrun) as [later Hsent].
    rewrite Hscript in Hsent. cbn in Hsent.
    eapply elem_of_prefix_of in He; [|done]. by apply list_elem_of_singleton in He.
  - intros Hdone. unfold sentErrors.
    rewrite (finished_performed_all w conn cfg _ _ _ Hcfg _ _ Hrun Hdone).
    by rewrite Hscript.
  - intros -> d Hd.
    apply (early_failure_is_returned w conn cfg stopCh localPort Hcfg _ sched st d);
      [by eapply fails_selector | done..].
Qed.

Lemma empty_selector_aborts_witness :
  rangeVisitsOnce worldB ∧
  kubeConfig scenarioConn = Some {| Host := "https://k8s.example" |} ∧
  ServicesGet worldB "db" "cockroachdb-public"
    = Ok {| SvcNamespace := "db"; SvcSelector := ∅ |} ∧
  setupSequence worldB {| Host := "https://k8s.example" |} "db"
    "cockroachdb-public" "26257" "26257"
  = [ACall (CServicesGet "db" "cockroachdb-public");
     ALog LError
       "failed to get service selector: service cockroachdb-public has no selector";
     ASend (Errorf "service cockroachdb-public has no selector");
     ACloseErr] ∧
  (∃ sched st,
     run sched (tryPortForwardIfNeeded worldB scenarioConn false false "26257")
       = Some st ∧
     gate st = GReturned (FromErr (Some (EmptySelector "cockroachdb-public")))) ∧
  ∀ sched st,
    run sched (tryPortForwardIfNeeded worldB scenarioConn false false "26257")
      = Some st →
    (∀ c, c ∈ callsMade st → c = CServicesGet "db" "cockroachdb-public") ∧
    forwarder st = FNotSpawned ∧
    (∀ e, e ∈ sentErrors st → e = EmptySelector "cockroachdb-public") ∧
    (setup st = Some [] → sentErrors st = [EmptySelector "cockroachdb-public"]) ∧
    (∀ d, gate st = GReturned d →
       d = FromErr (Some (EmptySelector "cockroachdb-public"))).
Proof.
  assert (rangeVisitsOnce worldB) as Hrange by (intros m; reflexivity).
  pose proof (empty_selector_aborts worldB scenarioConn
                {| Host := "https://k8s.example" |}
                {| SvcNamespace := "db"; SvcSelector := ∅ |}
                false false "26257" Hrange eq_refl eq_refl eq_refl)
    as (_ & _ & Hscript & Hcan & Hruns).
  split_and!; [exact Hrange | reflexivity | reflexivity | exact Hscript
              | exact (Hcan eq_refl) |].
  intros sched st Hrun.
  destruct (Hruns sched st Hrun) as (Hcalls & Hfw & Hsent & Hfin & Hgate).
  split_and!; [exact Hcalls | exact Hfw | exact Hsent | exact Hfin
              | exact (Hgate eq_refl)].
Defined.

(** * Further properties *)

(** ** The helpers *)

(** X1. A name returned without error is the name of a pod of the list that
    is Running, and no pod before it in the list is Running. *)
Theorem getPodName_picks_running (pods : PodList) (name : string) :
  getPodName pods = (name, None) →
  ∃ pre p post,
    Items pods = pre ++ p :: post ∧
    Forall (λ q, Phase q ≠ PodRunning) pre ∧
    Phase p = PodRunning ∧ Name p = name.
Proof.
  unfold getPodName. induction (Items pods) as [|x items IH]; cbn; [done|].
  destruct (String.eqb_spec (Phase x) PodRunning) as [Hrun|Hnot]; cbn.
  - intros [= <-]. by exists [], x, items.
  - intros (pre & p & post & -> & Hpre & Hp & Hname)%IH.
    exists (x :: pre), p, post. split_and!; [done | by constructor | done..].
Qed.

Lemma getPodName_picks_running_witness :
  getPodName scenarioPods = ("p1", None) ∧
  ∃ pre p post,
    Items scenarioPods = pre ++ p :: post ∧
    Forall (λ q, Phase q ≠ PodRunning) pre ∧
    Phase p = PodRunning ∧ Name p = "p1".
Proof.
  split; [reflexivity|].
  exact (getPodName_picks_running scenarioPods "p1" eq_refl).
Defined.

(** X2. Whatever the iteration order, the selector string is empty only for
    the empty mapping: the guard [selector == ""] of line 52 singles out
    exactly the services without labels (a mapping with an empty key and an
    empty value still gives ["="]). *)
Theorem selector_empty_only_for_empty_map
    (order : gmap string string → list (string * string))
    (msel : gmap string string) :
  order msel ≡ₚ map_to_list msel →
  (mapToSelectorStr order msel = "" ↔ msel = ∅) ∧
  (msel ≠ ∅ → 1 ≤ count_char "=" (mapToSelectorStr order msel)).
Proof.
  intros Hperm. split; [by apply mapToSelectorStr_empty_iff|].
  intros Hne. unfold mapToSelectorStr. rewrite mapToSelectorStr_range_join.
  destruct (order msel) as [|[k v] entries] eqn:Hord.
  - destruct Hne. apply map_to_list_empty_iff.
    apply Permutation_nil_l in Hperm. by rewrite <- Hperm.
  - unfold Sprintf_clause.
    destruct entries as [|kv entries]; cbn [fmap list_fmap fst snd].
    + change (String.concat "," [k +:+ "=" +:+ v]) with (k +:+ "=" +:+ v).
      rewrite !count_char_app. cbn. lia.
    + rewrite concat_cons_cons, !count_char_app. cbn. lia.
Qed.

Lemma selector_empty_only_for_empty_map_witness :
  map_to_list ({[ "" := "" ]} : gmap string string)
    ≡ₚ map_to_list ({[ "" := "" ]} : gmap string string) ∧
  (mapToSelectorStr map_to_list {[ "" := "" ]} = ""
     ↔ ({[ "" := "" ]} : gmap string string) = ∅) ∧
  mapToSelectorStr map_to_list {[ "" := "" ]} = "=".
Proof.
  split; [reflexivity|]. split; [|by vm_compute].
  exact (proj1 (selector_empty_only_for_empty_map map_to_list {[ "" := "" ]}
                  (reflexivity _))).
Defined.

(** X3. Two iteration orders of the same mapping give selector strings made
    of the same characters (each character occurs equally often, so the
    lengths agree too), and for a mapping with at most one entry they give
    the same string. *)
Theorem selector_orders_agree
    (order1 order2 : gmap string string → list (string * string))
    (msel : gmap string string) :
  order1 msel ≡ₚ map_to_list msel →
  order2 msel ≡ₚ map_to_list msel →
  (∀ c, count_char c (mapToSelectorStr order1 msel)
        = count_char c (mapToSelectorStr order2 msel)) ∧
  String.length (mapToSelectorStr order1 msel)
    = String.length (mapToSelectorStr order2 msel) ∧
  (size msel ≤ 1 → mapToSelectorStr order1 msel = mapToSelectorStr order2 msel).
Proof.
  intros H1 H2.
  assert (order1 msel ≡ₚ order2 msel) as Hperm by (by rewrite H1, H2).
  unfold mapToSelectorStr. rewrite !mapToSelectorStr_range_join.
  set (clause := λ kv : string * string, Sprintf_clause kv.1 kv.2).
  assert (length (order1 msel) = length (order2 msel)) as Hlen12
    by (by rewrite Hperm).
  split_and!.
  - intros c.
    pose proof (concat_count c "," (clause <$> order1 msel)) as E1.
    pose proof (concat_count c "," (clause <$> order2 msel)) as E2.
    assert (sum_list (count_char c <$> (clause <$> order1 msel))
            = sum_list (count_char c <$> (clause <$> order2 msel))) as Hsum
      by (by rewrite Hperm).
    rewrite !length_fmap in E1, E2.
    destruct (order1 msel) as [|x1 l1] eqn:Ho1;
      destruct (order2 msel) as [|x2 l2] eqn:Ho2; try done.
    cbn [fmap list_fmap] in E1, E2, Hsum |- *. lia.
  - pose proof (concat_length "," (clause <$> order1 msel)) as E1.
    pose proof (concat_length "," (clause <$> order2 msel)) as E2.
    assert (sum_list (String.length <$> (clause <$> order1 msel))
            = sum_list (String.length <$> (clause <$> order2 msel))) as Hsum
      by (by rewrite Hperm).
    rewrite !length_fmap in E1, E2.
    destruct (order1 msel) as [|x1 l1] eqn:Ho1;
      destruct (order2 msel) as [|x2 l2] eqn:Ho2; try done.
    cbn [fmap list_fmap] in E1, E2, Hsum |- *. lia.
  - intros Hsize. f_equal. f_equal.
    assert (length (order1 msel) ≤ 1) as Hlen.
    { by rewrite H1, length_map_to_list. }
    destruct (order1 msel) as [|x1 [|y1 l1]]; [| |cbn in Hlen; lia].
    + apply Permutation_nil_l in Hperm. done.
    + apply Permutation_singleton_l in Hperm. done.
Qed.

(** For the labels [{app: db, tier: sql}] the two orders give different
    strings of the same characters. *)
Lemma selector_orders_agree_witness :
  let msel : gmap string string := {[ "app" := "db"; "tier" := "sql" ]} in
  map_to_list msel ≡ₚ map_to_list msel ∧
  reverse (map_to_list msel) ≡ₚ map_to_list msel ∧
  String.length (mapToSelectorStr map_to_list msel)
    = String.length (mapToSelectorStr (λ m, reverse (map_to_list m)) msel) ∧
  mapToSelectorStr map_to_list msel
    ≠ mapToSelectorStr (λ m, reverse (map_to_list m)) msel.
Proof.
  intros msel.
  assert (reverse (map_to_list msel) ≡ₚ map_to_list msel) as Hrev
    by apply reverse_Permutation.
  split_and!; [reflexivity | exact Hrev | | by vm_compute].
  exact (proj1 (proj2 (selector_orders_agree map_to_list
                         (λ m, reverse (map_to_list m)) msel
                         (reflexivity _) Hrev))).
Defined.

(** X4. Nothing is escaped: a mapping with two entries and the mapping with
    one entry whose value spells out the second clause are different
    mappings with the same selector string. *)
Theorem selector_values_not_escaped
    (order : gmap string string → list (string * string))
    (k1 v1 k2 v2 : string) :
  (∀ m, order m ≡ₚ map_to_list m) →
  k1 ≠ k2 →
  order {[ k1 := v1; k2 := v2 ]} = [(k1, v1); (k2, v2)] →
  ({[ k1 := v1; k2 := v2 ]} : gmap string string)
    ≠ {[ k1 := v1 +:+ "," +:+ k2 +:+ "=" +:+ v2 ]} ∧
  mapToSelectorStr order {[ k1 := v1; k2 := v2 ]}
    = mapToSelectorStr order {[ k1 := v1 +:+ "," +:+ k2 +:+ "=" +:+ v2 ]}.
Proof.
  intros Horder Hne Htwo. split.
  - intros Heq. apply (f_equal (λ m : gmap string string, m !! k2)) in Heq.
    rewrite lookup_insert_ne, lookup_singleton_eq in Heq by done.
    by rewrite lookup_singleton_ne in Heq.
  - unfold mapToSelectorStr. rewrite Htwo.
    pose proof (Horder {[ k1 := v1 +:+ "," +:+ k2 +:+ "=" +:+ v2 ]}) as Hone.
    rewrite map_to_list_singleton in Hone.
    apply Permutation_singleton_r in Hone. rewrite Hone.
    rewrite !mapToSelectorStr_range_join. cbn [fmap list_fmap fst snd].
    rewrite concat_cons_cons. cbn [String.concat]. unfold Sprintf_clause.
    by rewrite !string_app_assoc.
Qed.

(** [{app: db, tier: sql}] and [{app: "db,tier=sql"}] both give
    ["app=db,tier=sql"]. *)
Lemma selector_values_not_escaped_witness :
  (∀ m : gmap string string, map_to_list m ≡ₚ map_to_list m) ∧
  "app" ≠ "tier" ∧
  map_to_list ({[ "app" := "db"; "tier" := "sql" ]} : gmap string string)
    = [("app", "db"); ("tier", "sql")] ∧
  ({[ "app" := "db"; "tier" := "sql" ]} : gmap string string)
    ≠ {[ "app" := "db,tier=sql" ]} ∧
  mapToSelectorStr map_to_list {[ "app" := "db"; "tier" := "sql" ]}
    = mapToSelectorStr map_to_list {[ "app" := "db,tier=sql" ]}.
Proof.
  assert (∀ m : gmap string string, map_to_list m ≡ₚ map_to_list m) as Hord
    by (intros m; reflexivity).
  assert ("app" ≠ "tier") as Hne by discriminate.
  assert (map_to_list ({[ "app" := "db"; "tier" := "sql" ]} : gmap string string)
          = [("app", "db"); ("tier", "sql")]) as Htwo by (by vm_compute).
  split_and!; [exact Hord | exact Hne | exact Htwo | |].
  - exact (proj1 (selector_values_not_escaped map_to_list "app" "db" "tier" "sql"
                    Hord Hne Htwo)).
  - exact (proj2 (selector_values_not_escaped map_to_list "app" "db" "tier" "sql"
                    Hord Hne Htwo)).
Defined.

Lemma contains_elem_of (elems : list string) (v : string) :
  contains elems v = true ↔ v ∈ elems.
Proof.
  induction elems as [|s elems IH]; cbn.
  - split; [done | by intros ?%elem_of_nil].
  - rewrite elem_of_cons. destruct (String.eqb_spec v s) as [->|Hne].
    + split; [by left | done].
    + rewrite IH. split; [by right | by intros [?|?]].
Qed.

Lemma convertToString_range_returns (raw_list : list GoValue) (i : nat)
    (val0 val : list string) :
  convertToString_range i raw_list val0 = Returned val →
  ∃ l : list string, raw_list = VString <$> l.
Proof.
  revert i val0. induction raw_list as [|raw rest IH]; intros i val0 Hret.
  - by exists [].
  - destruct raw as [s| | |]; cbn in Hret; try discriminate.
    apply IH in Hret as [l ->]. by exists (s :: l).
Qed.

(** X5. The two list helpers composed: when [convertToString] returns, a
    string is found by [contains] in the converted list exactly when it
    occurs, as a string, in the raw list. *)
Theorem contains_after_convert (raw_list : list GoValue) (val : list string)
    (v : string) :
  convertToString raw_list = Returned val →
  (contains val v = true ↔ VString v ∈ raw_list).
Proof.
  intros Hret. pose proof Hret as [l ->]%convertToString_range_returns.
  unfold convertToString in Hret.
  rewrite convertToString_range_strings in Hret
    by (by rewrite length_replicate, length_fmap).
  cbn in Hret. injection Hret as <-.
  rewrite contains_elem_of, list_elem_of_fmap. split.
  - intros Hin. by exists v.
  - by intros (s & [= ->] & Hin).
Qed.

Lemma contains_after_convert_witness :
  convertToString [VString "a"; VString "b"] = Returned ["a"; "b"] ∧
  (contains ["a"; "b"] "b" = true ↔ VString "b" ∈ [VString "a"; VString "b"]).
Proof.
  split; [reflexivity|].
  exact (contains_after_convert [VString "a"; VString "b"] ["a"; "b"] "b" eq_refl).
Defined.

(** ** More on the script *)

(** An element that occurs once in a list splits it in one way only. *)
Lemma split_unique {A} (x : A) (pre tail past k : list A) :
  x ∉ pre → x ∉ tail → pre ++ x :: tail = past ++ x :: k →
  past = pre ∧ k = tail.
Proof.
  revert past. induction pre as [|y pre IH]; intros [|z past] Hpre Htail Heq;
    cbn in Heq.
  - by injection Heq as <-.
  - injection Heq as <- ->. destruct Htail. apply elem_of_app. right.
    by apply elem_of_cons; left.
  - injection Heq as -> _. destruct Hpre. by apply elem_of_cons; left.
  - injection Heq as <- Heq. apply not_elem_of_cons in Hpre as [_ Hpre].
    destruct (IH past Hpre Htail Heq) as [-> ->]. done.
Qed.

Section ScriptShape.
Variables (w : World) (cfg : RestConfig).
Variables (ns name rport lport : string).

Local Abbreviation script := (setupSequence w cfg ns name rport lport).

(** Once the deferred close has run, the goroutine is over. *)
Lemma closed_means_finished (past rest : list Action) :
  script = past ++ rest → ACloseErr ∈ past → rest = [].
Proof.
  intros Hs Hin.
  destruct (script_ends_with_close w cfg ns name rport lport)
    as (body & Hbody & Hnot).
  rewrite Hs in Hbody.
  apply app_eq_inv in Hbody as [(k & Hpast & Hk)|(k & Hpast & _)].
  - destruct k as [|x k].
    + destruct Hnot. by rewrite Hpast, app_nil_r in Hin.
    + injection Hk as _ Hk. symmetry in Hk. by apply app_eq_nil in Hk as [_ ->].
  - destruct Hnot. rewrite Hpast. apply elem_of_app. by left.
Qed.

(** Every script is a run of calls followed by one of three endings. *)
Lemma script_shape :
  ∃ pre, Forall isCall pre ∧
    ((∃ msg e, FailsBeforeReady w cfg ns name rport lport e ∧
               script = pre ++ abort msg e)
     ∨ (∃ msg e, FailsAfterReady w cfg ns name rport lport e ∧
                 script = pre ++ awaitThen (abort msg e))
     ∨ (∃ livePod, allStepsPass w cfg ns name rport lport livePod ∧
                   script = pre ++ awaitThen
                     [ALog LInfo (establishedMsg lport rport livePod); ACloseErr])).
Proof.
  destruct (attempt_cases w cfg ns name rport lport) as [[e H]|[[e H]|[p H]]].
  - destruct (script_fails_before _ _ _ _ _ _ _ H) as (pre & msg & Hpre & Hs).
    exists pre. split; [done|]. left. by exists msg, e.
  - destruct (script_fails_after _ _ _ _ _ _ _ H) as (pre & msg & Hpre & Hs).
    exists pre. split; [done|]. right. left. by exists msg, e.
  - destruct (script_passes _ _ _ _ _ _ _ H) as (pre & Hpre & Hs).
    exists pre. split; [done|]. right. right. by exists p.
Qed.

(** [go pf.ForwardPorts()] occurs at most once. *)
Lemma spawn_once (past k : list Action) :
  script = past ++ AGoForward :: k → AGoForward ∉ past.
Proof.
  intros Hs.
  assert (∀ pre, Forall isCall pre → AGoForward ∉ pre) as Hcalls.
  { intros pre Hpre Hin. by apply (calls_only pre _ Hpre) in Hin. }
  destruct script_shape
    as (pre & Hpre & [(msg & e & _ & Hshape)|[(msg & e & _ & Hshape)|(p & _ & Hshape)]]).
  - exfalso. assert (AGoForward ∈ script) as Hin.
    { rewrite Hs. apply elem_of_app. right. by apply elem_of_cons; left. }
    rewrite Hshape in Hin. apply elem_of_app in Hin as [Hin|Hin].
    + by eapply Hcalls.
    + not_listed Hin.
  - rewrite Hshape in Hs. unfold awaitThen in Hs.
    apply split_unique in Hs as [-> _]; [by apply Hcalls | by apply Hcalls |].
    intros Hin. not_listed Hin.
  - rewrite Hshape in Hs. unfold awaitThen in Hs.
    apply split_unique in Hs as [-> _]; [by apply Hcalls | by apply Hcalls |].
    intros Hin. not_listed Hin.
Qed.
End ScriptShape.

(** ** More on what the caller gets *)

Section Outcomes.
Variables (w : World) (conn : kubeConn) (cfg : RestConfig).
Variables (stopCh readyCh : bool) (localPort : string).
Hypothesis configured : kubeConfig conn = Some cfg.

Local Abbreviation script :=
  (setupSequence w cfg (nameSpace conn) (serviceName conn) (remotePort conn)
     localPort).
Local Abbreviation attempt :=
  (tryPortForwardIfNeeded w conn stopCh readyCh localPort).
Local Abbreviation fails :=
  (StepFails w cfg (nameSpace conn) (serviceName conn) (remotePort conn)
     localPort).

Lemma returned_result (sched : list Move) (st : State) (d : Diagnostics) :
  run sched attempt = Some st → gate st = GReturned d →
  (d = [] ∧ readyClosed st = true)
  ∨ (∃ e, fails e ∧ d = FromErr (Some e) ∧ sentErrors st = [e]).
Proof.
  intros Hrun Hgate.
  destruct (attemptInv_reachable w conn cfg _ _ _ configured _ _ Hrun)
    as (past & rest & Hs & _ & Hperf & _ & Hg & _ & _ & Hrr).
  unfold gateInv in Hg. rewrite Hgate in Hg.
  assert (sends script = sends past ++ sends rest) as Hsplit
    by (by rewrite Hs, sends_app).
  destruct (attempt_cases w cfg (nameSpace conn) (serviceName conn)
              (remotePort conn) localPort) as [[e' H]|[[e' H]|[p H]]].
  - pose proof (sends_fails_before _ _ _ _ _ _ _ H) as Hsends.
    rewrite Hsends in Hsplit.
    destruct Hg as [(-> & _ & [Hr|[Hin Hnone]])|(e & -> & Hone & _)].
    + by left.
    + exfalso. apply (closed_means_finished _ _ _ _ _ _ _ _ Hs) in Hin.
      subst rest. by rewrite Hnone in Hsplit.
    + right. rewrite Hone in Hsplit. injection Hsplit as -> _.
      exists e. split_and!; [by left | done |].
      unfold sentErrors. by rewrite Hperf.
  - pose proof (sends_fails_after _ _ _ _ _ _ _ H) as Hsends.
    rewrite Hsends in Hsplit.
    destruct Hg as [(-> & _ & [Hr|[Hin Hnone]])|(e & -> & Hone & _)].
    + by left.
    + exfalso. apply (closed_means_finished _ _ _ _ _ _ _ _ Hs) in Hin.
      subst rest. by rewrite Hnone in Hsplit.
    + right. rewrite Hone in Hsplit. injection Hsplit as -> _.
      exists e. split_and!; [by right | done |].
      unfold sentErrors. by rewrite Hperf.
  - pose proof (sends_passes _ _ _ _ _ _ _ H) as Hsends.
    rewrite Hsends in Hsplit.
    destruct Hg as [(-> & _ & [Hr|[Hin _]])|(e & _ & Hone & _)].
    + by left.
    + left. split; [done|]. apply Hrr.
      apply (closed_means_finished _ _ _ _ _ _ _ _ Hs) in Hin as ->.
      rewrite app_nil_r in Hs. rewrite <- Hs.
      destruct (script_passes _ _ _ _ _ _ _ H) as (pre & _ & ->).
      apply elem_of_app. right. unfold awaitThen.
      apply elem_of_cons. right. by apply elem_of_cons; left.
    + by rewrite Hone in Hsplit.
Qed.
End Outcomes.

(** X6. Whatever a configured call returns, it is either nil diagnostics,
    and then [readyCh] is closed, or the single error diagnostic of a
    failure that did occur in this attempt, and then exactly that error was
    sent on [errCh]. A closed [errCh] read as a nil error only ever yields
    the first case. *)
Theorem caller_gets_nil_or_the_failure (w : World) (conn : kubeConn)
    (cfg : RestConfig) (stopCh readyCh : bool) (localPort : string)
    (sched : list Move) (st : State) (d : Diagnostics) :
  kubeConfig conn = Some cfg →
  run sched (tryPortForwardIfNeeded w conn stopCh readyCh localPort) = Some st →
  gate st = GReturned d →
  (d = [] ∧ readyClosed st = true)
  ∨ (∃ e, StepFails w cfg (nameSpace conn) (serviceName conn) (remotePort conn)
            localPort e ∧
          d = [{| DiagSeverity := SevError; Summary := Error e |}] ∧
          sentErrors st = [e]).
Proof. intros Hcfg Hrun Hgate. by eapply returned_result. Qed.

(** Scenario D with the setup goroutine running to its end before the
    caller's [select] is served: the caller gets the error. *)
Lemma caller_gets_nil_or_the_failure_witness :
  ∃ st,
    kubeConfig scenarioConn = Some scenarioCfg ∧
    run errorFirst (tryPortForwardIfNeeded worldD scenarioConn false false "26257")
      = Some st ∧
    gate st = GReturned (FromErr (Some (UnexpectedPortCount 2))) ∧
    ((FromErr (Some (UnexpectedPortCount 2)) = [] ∧ readyClosed st = true)
     ∨ (∃ e, StepFails worldD scenarioCfg "db" "cockroachdb-public" "26257"
               "26257" e ∧
             FromErr (Some (UnexpectedPortCount 2))
               = [{| DiagSeverity := SevError; Summary := Error e |}] ∧
             sentErrors st = [e])).
Proof.
  destruct (run errorFirst
              (tryPortForwardIfNeeded worldD scenarioConn false false "26257"))
    as [st|] eqn:Hrun; [|by vm_compute in Hrun].
  exists st.
  assert (gate st = GReturned (FromErr (Some (UnexpectedPortCount 2)))) as Hgate.
  { vm_compute in Hrun. by injection Hrun as <-. }
  split_and!; [reflexivity | reflexivity | exact Hgate |].
  exact (caller_gets_nil_or_the_failure worldD scenarioConn scenarioCfg false
           false "26257" errorFirst st _ eq_refl Hrun Hgate).
Defined.

(** ** Progress of the setup goroutine *)

Section Progress.
Variables (w : World) (conn : kubeConn) (cfg : RestConfig).
Variables (stopCh readyCh : bool) (localPort : string).
Hypothesis configured : kubeConfig conn = Some cfg.

Local Abbreviation script :=
  (setupSequence w cfg (nameSpace conn) (serviceName conn) (remotePort conn)
     localPort).
Local Abbreviation attempt :=
  (tryPortForwardIfNeeded w conn stopCh readyCh localPort).

(** While the setup goroutine has a statement left, [errCh] is open. *)
Lemma errCh_open_while_running (sched : list Move) (st : State)
    (a : Action) (k : list Action) :
  run sched attempt = Some st → setup st = Some (a :: k) →
  errClosed st = false.
Proof.
  intros Hrun Hset.
  destruct (attemptInv_reachable w conn cfg _ _ _ configured _ _ Hrun)
    as (past & rest & Hs & Hset' & _ & Hcl & _).
  rewrite Hset in Hset'. injection Hset' as <-.
  destruct (errClosed st); [|done].
  assert (ACloseErr ∈ past) as Hin by (by apply Hcl).
  by apply (closed_means_finished _ _ _ _ _ _ _ _ Hs) in Hin.
Qed.

(** When the next statement is a send, the buffer is empty. *)
Lemma errCh_empty_before_send (sched : list Move) (st : State)
    (e : error) (k : list Action) :
  run sched attempt = Some st → setup st = Some (ASend e :: k) →
  errBuf st = [].
Proof.
  intros Hrun Hset.
  destruct (attemptInv_reachable w conn cfg _ _ _ configured _ _ Hrun)
    as (past & rest & Hs & Hset' & _ & _ & Hg & _).
  rewrite Hset in Hset'. injection Hset' as <-.
  destruct (send_is_last _ _ _ _ _ _ _ _ _ Hs) as [_ Hpast].
  unfold gateInv in Hg. destruct (gate st).
  - by rewrite Hg.
  - destruct Hg as [(_ & -> & _)|(? & _ & _ & ?)]; done.
Qed.

(** Every statement but [<-readyCh] can be run at once, and [<-readyCh] as
    soon as [readyCh] is closed; the step changes neither the caller's state
    nor [readyCh], and panics in no case. *)
Lemma setup_progress (sched : list Move) (st : State)
    (a : Action) (k : list Action) :
  run sched attempt = Some st → crashed st = None →
  setup st = Some (a :: k) →
  (a = ARecvReady → readyClosed st = true) →
  ∃ st', step MSetup st = Some st' ∧ crashed st' = None ∧
         setup st' = Some k ∧ gate st' = gate st ∧
         readyClosed st' = readyClosed st.
Proof.
  intros Hrun Hlive Hset Hready.
  pose proof (errCh_open_while_running _ _ _ _ Hrun Hset) as Hopen.
  unfold step, stepSetup. rewrite Hlive, Hset.
  destruct a as [c|lvl msg|e| | |].
  - eexists. by split_and!.
  - eexists. by split_and!.
  - rewrite Hopen, (errCh_empty_before_send _ _ _ _ Hrun Hset). cbn.
    eexists. by split_and!.
  - eexists. by split_and!.
  - specialize (Hready eq_refl). rewrite Hready.
    eexists. by split_and!.
  - rewrite Hopen. eexists. by split_and!.
Qed.

Lemma reachable_step (sched : list Move) (m : Move) (st st' : State) :
  run sched attempt = Some st → step m st = Some st' →
  run (sched ++ [m]) attempt = Some st'.
Proof. intros Hrun Hstep. rewrite run_app, Hrun. cbn. by rewrite Hstep. Qed.

Lemma reachable_run (sched sched' : list Move) (st st' : State) :
  run sched attempt = Some st → run sched' st = Some st' →
  run (sched ++ sched') attempt = Some st'.
Proof. intros Hrun Hrun'. by rewrite run_app, Hrun. Qed.

(** From any state in which it is not going to wait for an open [readyCh],
    the setup goroutine can be run to its end. *)
Lemma setup_runs_on (rest : list Action) (sched : list Move) (st : State) :
  run sched attempt = Some st → crashed st = None →
  setup st = Some rest →
  (ARecvReady ∈ rest → readyClosed st = true) →
  ∃ st', run (replicate (length rest) MSetup) st = Some st' ∧
         setup st' = Some [] ∧ crashed st' = None ∧ gate st' = gate st.
Proof.
  revert sched st. induction rest as [|a k IH]; intros sched st Hrun Hlive Hset Hrdy.
  - exists st. by split_and!.
  - destruct (setup_progress sched st a k Hrun Hlive Hset)
      as (st1 & Hstep & Hlive1 & Hset1 & Hgate1 & Hready1).
    { intros ->. apply Hrdy. by apply elem_of_cons; left. }
    destruct (IH (sched ++ [MSetup]) st1) as (st' & Hrun' & ? & ? & Hgate');
      [by eapply reachable_step | done | done | |].
    { intros Hin. rewrite Hready1. apply Hrdy. by apply elem_of_cons; right. }
    exists st'. split_and!; [|done..|congruence].
    cbn [length replicate run]. by rewrite Hstep.
Qed.

(** Once the setup goroutine has finished, a caller still in its [select]
    can receive from [errCh]: the error sent, or nil from the closed
    channel. *)
Lemma finished_gate_receives (sched : list Move) (st : State) :
  run sched attempt = Some st → crashed st = None →
  setup st = Some [] → gate st = GSelect →
  ∃ st', step MGateErr st = Some st' ∧
         gate st' = GReturned (FromErr (head (sends script))).
Proof.
  intros Hrun Hlive Hset Hgate.
  destruct (attemptInv_reachable w conn cfg _ _ _ configured _ _ Hrun)
    as (past & rest & Hs & Hset' & _ & Hcl & Hg & _).
  rewrite Hset in Hset'. injection Hset' as <-. rewrite app_nil_r in Hs.
  subst past. unfold gateInv in Hg. rewrite Hgate in Hg.
  assert (errClosed st = true) as Hclosed.
  { apply Hcl.
    destruct (script_ends_with_close w cfg (nameSpace conn) (serviceName conn)
                (remotePort conn) localPort) as (body & -> & _).
    apply elem_of_app. right. by apply elem_of_cons; left. }
  unfold step. rewrite Hlive, Hgate, Hg.
  destruct (sends script) as [|e l]; [rewrite Hclosed|]; by eexists.
Qed.
End Progress.

(** X7. When one of the steps 1-7 fails and [readyCh] was handed in open:
    in every execution the forwarder is never spawned and [readyCh] stays
    open; whatever the caller gets back is the one error diagnostic of that
    failure; and from every state reached without a panic the caller can
    still get it (the setup goroutine runs to its end without blocking and
    the [select] receives the buffered error). *)
Theorem early_failure_always_reportable (w : World) (conn : kubeConn)
    (cfg : RestConfig) (stopCh : bool) (localPort : string) (e : error) :
  kubeConfig conn = Some cfg →
  FailsBeforeReady w cfg (nameSpace conn) (serviceName conn) (remotePort conn)
    localPort e →
  ∀ sched st,
    run sched (tryPortForwardIfNeeded w conn stopCh false localPort) = Some st →
    forwarder st = FNotSpawned ∧ readyClosed st = false ∧
    (∀ d, gate st = GReturned d →
          d = [{| DiagSeverity := SevError; Summary := Error e |}]) ∧
    (crashed st = None →
     ∃ sched' st', run sched' st = Some st' ∧
       gate st' = GReturned [{| DiagSeverity := SevError; Summary := Error e |}]).
Proof.
  intros Hcfg Hfail sched st Hrun.
  destruct (script_fails_before _ _ _ _ _ _ _ Hfail) as (pre & msg & Hpre & Hscript).
  assert (∀ a, a ∈ setupSequence w cfg (nameSpace conn) (serviceName conn)
                     (remotePort conn) localPort →
               a ≠ AGoForward ∧ a ≠ ARecvReady) as Hnone.
  { intros a. rewrite Hscript. intros [Hin|Hin]%elem_of_app.
    - apply (calls_only pre _ Hpre) in Hin. by destruct a.
    - split; intros ->; not_listed Hin. }
  destruct (forwarder_not_spawned w conn cfg _ _ _ Hcfg _ _ Hrun) as [Hfw Hrd].
  { intros Hin. by destruct (Hnone _ Hin). }
  assert (∀ d, gate st = GReturned d → d = FromErr (Some e)) as Hret.
  { intros d Hd.
    by destruct (early_failure_is_returned w conn cfg stopCh localPort Hcfg
                   e sched st d Hfail Hrun Hd). }
  split_and!; [done | by apply Hrd | exact Hret |].
  intros Hlive. destruct (gate st) as [|d] eqn:Hgate.
  - destruct (performed_prefix w conn cfg _ _ _ Hcfg _ _ Hrun) as (rest & Hs & Hset).
    destruct (setup_runs_on w conn cfg _ _ _ Hcfg rest sched st Hrun Hlive Hset)
      as (st1 & Hrun1 & Hset1 & Hlive1 & Hgate1).
    { intros Hin. exfalso.
      assert (ARecvReady ∈ setupSequence w cfg (nameSpace conn)
                (serviceName conn) (remotePort conn) localPort) as Hin'.
      { rewrite Hs. apply elem_of_app. by right. }
      by destruct (Hnone _ Hin'). }
    pose proof (reachable_run w conn _ _ _ _ _ _ _ Hrun Hrun1) as Hreach.
    destruct (finished_gate_receives w conn cfg _ _ _ Hcfg _ _ Hreach Hlive1 Hset1)
      as (st2 & Hstep2 & Hgate2); [congruence|].
    rewrite (sends_fails_before _ _ _ _ _ _ _ Hfail) in Hgate2.
    exists (replicate (length rest) MSetup ++ [MGateErr]), st2.
    split; [|done]. rewrite run_app, Hrun1. cbn. by rewrite Hstep2.
  - exists [], st. split; [done|]. rewrite Hgate. f_equal. by apply Hret.
Qed.

Lemma scenarioC_fails :
  FailsBeforeReady worldC scenarioCfg "db" "cockroachdb-public" "26257" "26257"
    (NoCandidates "app=cockroachdb").
Proof.
  apply (fails_candidates worldC scenarioCfg "db" "cockroachdb-public" "26257"
           "26257" {| SvcNamespace := "db"; SvcSelector := appSelector |}
           {| Items := [] |}); [reflexivity | by vm_compute | reflexivity..].
Qed.

(** Scenario C: the listing returns no pod, and the caller can get the "no
    CockroachDB pods found" diagnostic. *)
Lemma early_failure_always_reportable_witness :
  kubeConfig scenarioConn = Some scenarioCfg ∧
  FailsBeforeReady worldC scenarioCfg "db" "cockroachdb-public" "26257" "26257"
    (NoCandidates "app=cockroachdb") ∧
  ∃ sched' st',
    run sched' (tryPortForwardIfNeeded worldC scenarioConn false false "26257")
      = Some st' ∧
    gate st' = GReturned
      [{| DiagSeverity := SevError;
          Summary := "no CockroachDB pods found with selector app=cockroachdb" |}].
Proof.
  split; [reflexivity|]. split; [exact scenarioC_fails|].
  destruct (early_failure_always_reportable worldC scenarioConn scenarioCfg
              false "26257" _ eq_refl scenarioC_fails [] _ eq_refl)
    as (_ & _ & _ & Hcan).
  exact (Hcan eq_refl).
Defined.

(** X8. The setup goroutine is blocked in exactly one situation: its next
    statement is [<-readyCh] and [readyCh] is still open. Every other
    statement (calls, log lines, the send on [errCh], the close of [errCh],
    spawning the forwarder) runs at once, without a panic, and leaves the
    rest of the script to be run. *)
Theorem setup_blocks_only_on_ready (w : World) (conn : kubeConn)
    (cfg : RestConfig) (stopCh readyCh : bool) (localPort : string)
    (sched : list Move) (st : State) (a : Action) (k : list Action) :
  kubeConfig conn = Some cfg →
  run sched (tryPortForwardIfNeeded w conn stopCh readyCh localPort) = Some st →
  crashed st = None →
  setup st = Some (a :: k) →
  (step MSetup st = None ↔ a = ARecvReady ∧ readyClosed st = false) ∧
  (∀ st', step MSetup st = Some st' → crashed st' = None ∧ setup st' = Some k).
Proof.
  intros Hcfg Hrun Hlive Hset.
  assert ((a = ARecvReady ∧ readyClosed st = false)
          ∨ (a = ARecvReady → readyClosed st = true)) as [[-> Hopen]|Hgo].
  { destruct (readyClosed st); [by right|].
    destruct a; (by left) || (by right). }
  - assert (step MSetup st = None) as Hnone.
    { unfold step, stepSetup. by rewrite Hlive, Hset, Hopen. }
    split; [done|]. intros st' Hst'. by rewrite Hnone in Hst'.
  - destruct (setup_progress w conn cfg _ _ _ Hcfg sched st a k Hrun Hlive Hset Hgo)
      as (st1 & Hstep & Hlive1 & Hset1 & _).
    split.
    + rewrite Hstep. split; [done|]. intros [-> Hopen].
      rewrite Hgo in Hopen; done.
    + intros st' Hst'. rewrite Hstep in Hst'. by injection Hst' as <-.
Qed.

(** Scenario D after the seven statements before [<-readyCh]: blocked. *)
Lemma setup_blocks_only_on_ready_witness :
  ∃ st k,
    kubeConfig scenarioConn = Some scenarioCfg ∧
    run (replicate 7 MSetup)
      (tryPortForwardIfNeeded worldD scenarioConn false false "26257") = Some st ∧
    crashed st = None ∧
    setup st = Some (ARecvReady :: k) ∧
    step MSetup st = None.
Proof.
  destruct (run (replicate 7 MSetup)
              (tryPortForwardIfNeeded worldD scenarioConn false false "26257"))
    as [st|] eqn:Hrun; [|by vm_compute in Hrun].
  pose proof Hrun as Hval. vm_compute in Hval. injection Hval as Hval.
  assert (crashed st = None) as Hlive by (by rewrite <- Hval).
  assert (readyClosed st = false) as Hopen by (by rewrite <- Hval).
  assert (∃ k, setup st = Some (ARecvReady :: k)) as [k Hset].
  { rewrite <- Hval. by eexists. }
  exists st, k. split_and!; [reflexivity | reflexivity | exact Hlive | exact Hset |].
  apply (setup_blocks_only_on_ready worldD scenarioConn scenarioCfg false false
           "26257" _ st ARecvReady k eq_refl Hrun Hlive Hset).
  by split.
Defined.

(** ** Passing attempts and late failures *)

(** From the creation of the tunnel on in a passing attempt: the forwarder
    reports, the caller takes the readiness case, and the setup goroutine
    logs success and closes [errCh]. *)
Lemma run_await_pass (msg : string) (st : State) :
  setup st = Some (awaitThen [ALog LInfo msg; ACloseErr]) →
  errBuf st = [] → errClosed st = false → readyClosed st = false →
  gate st = GSelect → crashed st = None →
  ∃ st', run ([MSetup; MForwardReady; MGateReady] ++ replicate 4 MSetup) st
           = Some st' ∧
         gate st' = GReturned [] ∧ errBuf st' = [] ∧ errClosed st' = true ∧
         setup st' = Some [] ∧ crashed st' = None.
Proof.
  destruct st as [buf cl stop rdy set wt fw g cr tr].
  cbn [setup errBuf errClosed readyClosed gate crashed].
  intros -> -> -> -> -> ->.
  destruct (run _ _) as [st'|] eqn:Hrun; [|by vm_compute in Hrun].
  exists st'. split; [done|].
  vm_compute in Hrun. by injection Hrun as <-.
Qed.

(** The same stretch in a failing attempt when the setup goroutine gets to
    its end before the caller's [select] is served. *)
Lemma run_await_abort_received (msg : string) (e : error) (st : State) :
  setup st = Some (awaitThen (abort msg e)) →
  errBuf st = [] → errClosed st = false → readyClosed st = false →
  gate st = GSelect → crashed st = None →
  ∃ st', run ([MSetup; MForwardReady] ++ replicate 5 MSetup ++ [MGateErr]) st
           = Some st' ∧
         gate st' = GReturned (FromErr (Some e)) ∧ setup st' = Some [].
Proof.
  destruct st as [buf cl stop rdy set wt fw g cr tr].
  cbn [setup errBuf errClosed readyClosed gate crashed].
  intros -> -> -> -> -> ->.
  destruct (run _ _) as [st'|] eqn:Hrun; [|by vm_compute in Hrun].
  exists st'. split; [done|].
  vm_compute in Hrun. by injection Hrun as <-.
Qed.

Section Tunnelled.
Variables (w : World) (conn : kubeConn) (cfg : RestConfig).
Variables (stopCh : bool) (localPort : string).
Hypothesis configured : kubeConfig conn = Some cfg.

Local Abbreviation script :=
  (setupSequence w cfg (nameSpace conn) (serviceName conn) (remotePort conn)
     localPort).
Local Abbreviation attempt :=
  (tryPortForwardIfNeeded w conn stopCh false localPort).

(** The calls before the tunnel exists can be run from the start. *)
Lemma run_to_tunnel (pre tail : list Action) :
  Forall isCall pre → script = pre ++ tail →
  ∃ st1, run (replicate (length pre) MSetup) attempt = Some st1 ∧
         setup st1 = Some tail ∧ errBuf st1 = [] ∧ errClosed st1 = false ∧
         gate st1 = GSelect ∧ crashed st1 = None ∧ readyClosed st1 = false.
Proof.
  intros Hpre Hscript.
  pose proof (attempt_configured w conn cfg stopCh false localPort configured)
    as Hinit.
  destruct (run_calls pre tail attempt Hpre)
    as (st1 & Hrun1 & Hset1 & Hbuf1 & Hcl1 & Hg1 & Hlive1 & Hrd1).
  { rewrite Hinit. cbn [setup]. by rewrite Hscript. }
  { by rewrite Hinit. }
  rewrite Hinit in Hbuf1, Hcl1, Hg1, Hrd1.
  cbn [errBuf errClosed gate readyClosed] in Hbuf1, Hcl1, Hg1, Hrd1.
  by exists st1.
Qed.

Lemma passing_can_succeed (livePod : string) :
  allStepsPass w cfg (nameSpace conn) (serviceName conn) (remotePort conn)
    localPort livePod →
  ∃ sched st, run sched attempt = Some st ∧
    gate st = GReturned [] ∧ setup st = Some [] ∧
    errClosed st = true ∧ errBuf st = [] ∧ crashed st = None.
Proof.
  intros Hpass.
  destruct (script_passes _ _ _ _ _ _ _ Hpass) as (pre & Hpre & Hscript).
  destruct (run_to_tunnel pre _ Hpre Hscript)
    as (st1 & Hrun1 & Hset1 & Hbuf1 & Hcl1 & Hg1 & Hlive1 & Hrd1).
  destruct (run_await_pass _ st1 Hset1 Hbuf1 Hcl1 Hrd1 Hg1 Hlive1)
    as (st2 & Hrun2 & ? & ? & ? & ? & ?).
  exists (replicate (length pre) MSetup
          ++ [MSetup; MForwardReady; MGateReady] ++ replicate 4 MSetup), st2.
  split_and!; try done. by rewrite run_app, Hrun1.
Qed.

Lemma late_failure_can_be_received (e : error) :
  FailsAfterReady w cfg (nameSpace conn) (serviceName conn) (remotePort conn)
    localPort e →
  ∃ sched st, run sched attempt = Some st ∧
    gate st = GReturned (FromErr (Some e)) ∧ setup st = Some [].
Proof.
  intros Hfail.
  destruct (script_fails_after _ _ _ _ _ _ _ Hfail) as (pre & msg & Hpre & Hscript).
  destruct (run_to_tunnel pre _ Hpre Hscript)
    as (st1 & Hrun1 & Hset1 & Hbuf1 & Hcl1 & Hg1 & Hlive1 & Hrd1).
  destruct (run_await_abort_received msg e st1 Hset1 Hbuf1 Hcl1 Hrd1 Hg1 Hlive1)
    as (st2 & Hrun2 & ? & ?).
  exists (replicate (length pre) MSetup
          ++ [MSetup; MForwardReady] ++ replicate 5 MSetup ++ [MGateErr]), st2.
  split_and!; try done. by rewrite run_app, Hrun1.
Qed.
End Tunnelled.

(** X9. When all of steps 1-10 pass and [readyCh] was handed in open: no
    error is ever sent; whatever the caller gets back is nil diagnostics,
    and only after [readyCh] was closed, be it through the readiness case
    or through the closed [errCh]; and there is an execution in which the
    caller returns nil, the setup goroutine has logged the success line and
    finished, [errCh] is closed and empty and nothing has panicked. *)
Theorem passing_attempt_succeeds (w : World) (conn : kubeConn)
    (cfg : RestConfig) (stopCh : bool) (localPort livePod : string) :
  kubeConfig conn = Some cfg →
  allStepsPass w cfg (nameSpace conn) (serviceName conn) (remotePort conn)
    localPort livePod →
  (∀ sched st,
     run sched (tryPortForwardIfNeeded w conn stopCh false localPort) = Some st →
     sentErrors st = [] ∧
     ∀ d, gate st = GReturned d → d = [] ∧ readyClosed st = true) ∧
  (∃ sched st,
     run sched (tryPortForwardIfNeeded w conn stopCh false localPort) = Some st ∧
     gate st = GReturned [] ∧ setup st = Some [] ∧
     successLogged (performed (trace st)) ∧
     errClosed st = true ∧ errBuf st = [] ∧ crashed st = None).
Proof.
  intros Hcfg Hpass. split.
  - intros sched st Hrun.
    assert (sentErrors st = []) as Hsent.
    { destruct (sentErrors_prefix w conn cfg _ _ _ Hcfg _ _ Hrun) as [later Hs].
      rewrite (sends_passes _ _ _ _ _ _ _ Hpass) in Hs.
      symmetry in Hs. by apply app_eq_nil in Hs as [? _]. }
    split; [done|]. intros d Hd.
    destruct (returned_result w conn cfg _ _ _ Hcfg _ _ _ Hrun Hd)
      as [[-> ?]|(e & _ & _ & He)]; [done|].
    by rewrite Hsent in He.
  - destruct (passing_can_succeed w conn cfg stopCh localPort Hcfg livePod Hpass)
      as (sched & st & Hrun & ? & Hdone & ? & ? & ?).
    exists sched, st. split_and!; try done.
    rewrite (finished_performed_all w conn cfg _ _ _ Hcfg _ _ Hrun Hdone).
    destruct (script_passes _ _ _ _ _ _ _ Hpass) as (pre & _ & ->).
    eexists. apply elem_of_app. right. unfold awaitThen.
    do 3 (apply elem_of_cons; right). by apply elem_of_cons; left.
Qed.

Lemma scenarioA_passes :
  allStepsPass worldA scenarioCfg "db" "cockroachdb-public" "26257" "26257" "p1".
Proof.
  split; [|by exists onePort].
  split_and!.
  - exists {| SvcNamespace := "db"; SvcSelector := appSelector |}, scenarioPods.
    split_and!; [reflexivity | by vm_compute | reflexivity | done | reflexivity].
  - by eexists.
  - by eexists.
  - by eexists.
Qed.

(** Scenario A with one bound port. *)
Lemma passing_attempt_succeeds_witness :
  kubeConfig scenarioConn = Some scenarioCfg ∧
  allStepsPass worldA scenarioCfg "db" "cockroachdb-public" "26257" "26257" "p1" ∧
  ∃ sched st,
    run sched (tryPortForwardIfNeeded worldA scenarioConn false false "26257")
      = Some st ∧
    gate st = GReturned [] ∧ setup st = Some [] ∧
    successLogged (performed (trace st)) ∧
    errClosed st = true ∧ errBuf st = [] ∧ crashed st = None.
Proof.
  split; [reflexivity|]. split; [exact scenarioA_passes|].
  exact (proj2 (passing_attempt_succeeds worldA scenarioConn scenarioCfg false
                  "26257" "p1" eq_refl scenarioA_passes)).
Defined.

(** X10. When step 10 fails (the port query errs or returns a number of
    ports other than one) and [readyCh] was handed in open, the caller's
    result is decided by the race: whatever it gets back comes after
    [readyCh] was closed and is either nil or the one diagnostic of that
    failure, and both happen, the first with the failure sent and left
    unreceived in the buffer of [errCh]. *)
Theorem late_failure_outcomes (w : World) (conn : kubeConn)
    (cfg : RestConfig) (stopCh : bool) (localPort : string) (e : error) :
  kubeConfig conn = Some cfg →
  FailsAfterReady w cfg (nameSpace conn) (serviceName conn) (remotePort conn)
    localPort e →
  (∀ sched st d,
     run sched (tryPortForwardIfNeeded w conn stopCh false localPort) = Some st →
     gate st = GReturned d →
     readyClosed st = true ∧
     (d = [] ∨ d = [{| DiagSeverity := SevError; Summary := Error e |}])) ∧
  (∃ sched st,
     run sched (tryPortForwardIfNeeded w conn stopCh false localPort) = Some st ∧
     gate st = GReturned [] ∧ setup st = Some [] ∧
     sentErrors st = [e] ∧ errBuf st = [e]) ∧
  (∃ sched st,
     run sched (tryPortForwardIfNeeded w conn stopCh false localPort) = Some st ∧
     gate st = GReturned [{| DiagSeverity := SevError; Summary := Error e |}] ∧
     setup st = Some []).
Proof.
  intros Hcfg Hfail. split_and!.
  - intros sched st d Hrun Hd.
    destruct (returned_result w conn cfg _ _ _ Hcfg _ _ _ Hrun Hd)
      as [[-> ?]|(e' & He' & -> & Hsent)]; [by split; [|left]|].
    split.
    + apply (late_failure_follows_readiness w conn cfg stopCh localPort Hcfg
               e sched st Hfail Hrun). by rewrite Hsent.
    + right. apply sends_fails in He'.
      rewrite (sends_fails_after _ _ _ _ _ _ _ Hfail) in He'.
      by injection He' as ->.
  - exact (late_failure_can_be_lost w conn cfg stopCh localPort Hcfg e Hfail).
  - exact (late_failure_can_be_received w conn cfg stopCh localPort Hcfg e Hfail).
Qed.

(** Scenario D: two bound ports. *)
Lemma late_failure_outcomes_witness :
  kubeConfig scenarioConn = Some scenarioCfg ∧
  FailsAfterReady worldD scenarioCfg "db" "cockroachdb-public" "26257" "26257"
    (UnexpectedPortCount 2) ∧
  (∃ sched st,
     run sched (tryPortForwardIfNeeded worldD scenarioConn false false "26257")
       = Some st ∧
     gate st = GReturned [] ∧ setup st = Some [] ∧
     sentErrors st = [UnexpectedPortCount 2] ∧
     errBuf st = [UnexpectedPortCount 2]) ∧
  (∃ sched st,
     run sched (tryPortForwardIfNeeded worldD scenarioConn false false "26257")
       = Some st ∧
     gate st = GReturned
       [{| DiagSeverity := SevError;
           Summary := "unexpected number of forwarded ports: got 2, expected 1" |}] ∧
     setup st = Some []).
Proof.
  assert (FailsAfterReady worldD scenarioCfg "db" "cockroachdb-public" "26257"
            "26257" (UnexpectedPortCount 2)) as Hfail.
  { apply (fails_count _ _ _ _ _ _ "p1" twoPorts);
      [apply scenarioD_tunnels | reflexivity | cbn; lia]. }
  split; [reflexivity|]. split; [exact Hfail|].
  exact (proj2 (late_failure_outcomes worldD scenarioConn scenarioCfg false
                  "26257" _ eq_refl Hfail)).
Defined.

(** ** Panics and the interrupt watcher *)

Lemma watcherEvents_app (a b : list Event) :
  watcherEvents (a ++ b) = watcherEvents a ++ watcherEvents b.
Proof.
  induction a as [|x a IH]; [done|]. destruct x; cbn; by rewrite ?IH.
Qed.

(** A statement of the setup goroutine touches neither the watcher nor
    [stopCh]. *)
Lemma stepSetup_leaves_watcher (st st' : State) :
  stepSetup st = Some st' →
  watcher st' = watcher st ∧ stopClosed st' = stopClosed st ∧
  watcherEvents (trace st') = watcherEvents (trace st).
Proof.
  unfold stepSetup. intros Hstep.
  repeat case_match; try discriminate; stepped; cbn;
    rewrite ?watcherEvents_app, ?app_nil_r; done.
Qed.

Section Calm.
Variables (w : World) (conn : kubeConn) (cfg : RestConfig).
Variables (localPort : string).
Hypothesis configured : kubeConfig conn = Some cfg.

Local Abbreviation attempt :=
  (tryPortForwardIfNeeded w conn false false localPort).

Lemma calm_step (sched : list Move) (m : Move) (st st' : State) :
  run sched attempt = Some st → calmInv st → step m st = Some st' →
  calmInv st'.
Proof.
  intros Hrun (Hlive & Hstop & Hready) Hstep.
  unfold step in Hstep. rewrite Hlive in Hstep.
  destruct m.
  - unfold stepSetup in Hstep.
    destruct (setup st) as [[|a k]|] eqn:Hset; try discriminate.
    pose proof (errCh_open_while_running w conn cfg _ _ _ configured _ _ _ _
                  Hrun Hset) as Hopen.
    destruct a as [c|lvl msg|e| | |].
    + stepped. by split_and!.
    + stepped. by split_and!.
    + rewrite Hopen in Hstep. case_decide; [|done]. stepped. by split_and!.
    + stepped. split_and!; [done..|]. cbn. intros Hr. exfalso.
      destruct (attemptInv_reachable w conn cfg _ _ _ configured _ _ Hrun)
        as (past & rest & Hs & Hset' & _ & _ & _ & Hfw & Hrd & _).
      rewrite Hset in Hset'. injection Hset' as <-.
      apply spawn_once in Hs. destruct (Hrd Hr) as [?|Hsp]; [done|].
      by apply Hs, Hfw.
    + destruct (readyClosed st) eqn:Hr; [|done]. stepped. split_and!; try done.
      cbn. by rewrite Hr.
    + rewrite Hopen in Hstep. stepped. by split_and!.
  - destruct (watcher st) eqn:Hw; try discriminate. stepped.
    split_and!; try done. cbn. intros Hs. apply Hstop in Hs. congruence.
  - destruct (watcher st) eqn:Hw; try discriminate.
    + stepped. split_and!; try done. cbn. intros Hs. apply Hstop in Hs. congruence.
    + destruct (stopClosed st) eqn:Hs.
      * specialize (Hstop eq_refl). congruence.
      * stepped. by split_and!.
  - destruct (forwarder st) eqn:Hf; try discriminate.
    destruct (readyClosed st) eqn:Hr.
    + destruct (Hready eq_refl); congruence.
    + stepped. split_and!; try done. cbn. intros _. by left.
  - destruct (forwarder st) eqn:Hf; try discriminate; stepped;
      split_and!; try done; cbn; intros _; by right.
  - destruct (gate st); [|done]. destruct (readyClosed st) eqn:Hr; [|done].
    stepped. split_and!; try done. cbn. by rewrite Hr.
  - destruct (gate st); [|done].
    destruct (errBuf st); [destruct (errClosed st); [|done]|]; stepped;
      by split_and!.
Qed.

Lemma calm_reachable (sched : list Move) (st : State) :
  run sched attempt = Some st → calmInv st.
Proof.
  revert st. induction sched as [|m sched IH] using rev_ind; intros st Hrun.
  - cbn in Hrun. injection Hrun as <-.
    rewrite (attempt_configured w conn cfg false false localPort configured).
    by split_and!.
  - rewrite run_app in Hrun.
    destruct (run sched attempt) as [st0|] eqn:Hrun0; [|done].
    cbn in Hrun. destruct (step m st0) as [st1|] eqn:Hstep; [|done].
    injection Hrun as <-. eapply calm_step; [done | by apply IH | done].
Qed.
End Calm.

(** X11. When [stopCh] and [readyCh] are handed in open, no execution
    panics: no send on and no close of a closed [errCh], no second close of
    [stopCh] or of [readyCh]. [stopCh] is closed only when the watcher is
    through, and [readyCh] only when the forwarder has reported. *)
Theorem open_channels_never_panic (w : World) (conn : kubeConn)
    (cfg : RestConfig) (localPort : string) (sched : list Move) (st : State) :
  kubeConfig conn = Some cfg →
  run sched (tryPortForwardIfNeeded w conn false false localPort) = Some st →
  crashed st = None ∧
  (stopClosed st = true → watcher st = WDone) ∧
  (readyClosed st = true → forwarder st = FReady ∨ forwarder st = FExited).
Proof. intros Hcfg Hrun. by eapply calm_reachable. Qed.

(** Scenario D with an interrupt after the caller has returned. *)
Lemma open_channels_never_panic_witness :
  ∃ st,
    kubeConfig scenarioConn = Some scenarioCfg ∧
    run (readyFirst ++ [MSignal; MWatcher; MWatcher])
      (tryPortForwardIfNeeded worldD scenarioConn false false "26257") = Some st ∧
    crashed st = None ∧ stopClosed st = true ∧ watcher st = WDone.
Proof.
  destruct (run (readyFirst ++ [MSignal; MWatcher; MWatcher])
              (tryPortForwardIfNeeded worldD scenarioConn false false "26257"))
    as [st|] eqn:Hrun; [|by vm_compute in Hrun].
  exists st.
  assert (stopClosed st = true) as Hstop.
  { vm_compute in Hrun. by injection Hrun as <-. }
  destruct (open_channels_never_panic worldD scenarioConn scenarioCfg "26257"
              _ st eq_refl Hrun) as (Hlive & Hw & _).
  split_and!; [reflexivity | reflexivity | exact Hlive | exact Hstop
              | exact (Hw Hstop)].
Defined.

(** What the watcher has logged and closed matches its state, and [stopCh]
    is closed by nobody else; [stop0] is [stopCh] as handed in. *)
Lemma watcher_step (stop0 : bool) (m : Move) (st st' : State) :
  watcherEvents (trace st) = watcherDone (watcher st) ∧
  (stopClosed st = true → stop0 = true ∨ watcher st = WDone) →
  step m st = Some st' →
  watcherEvents (trace st') = watcherDone (watcher st') ∧
  (stopClosed st' = true → stop0 = true ∨ watcher st' = WDone).
Proof.
  intros [Hev Hstop] Hstep. unfold step in Hstep.
  destruct (crashed st); [done|].
  destruct m.
  - apply stepSetup_leaves_watcher in Hstep as (-> & -> & ->). done.
  - destruct (watcher st) eqn:Hw; try discriminate. stepped. cbn.
    split; [done|]. intros Hs. destruct (Hstop Hs); [by left | done].
  - destruct (watcher st) eqn:Hw; try discriminate.
    + stepped. cbn. rewrite watcherEvents_app, Hev. split; [done|].
      intros Hs. destruct (Hstop Hs); [by left | done].
    + destruct (stopClosed st) eqn:Hs; stepped; cbn.
      * rewrite Hw. split; [done|]. intros _. by apply Hstop.
      * rewrite watcherEvents_app, Hev. split; [done|]. intros _. by right.
  - destruct (forwarder st); try discriminate.
    destruct (readyClosed st); stepped; cbn;
      rewrite ?watcherEvents_app, ?app_nil_r; done.
  - destruct (forwarder st); try discriminate; by stepped.
  - destruct (gate st); [|done]. destruct (readyClosed st); [|done].
    stepped. cbn. by rewrite !watcherEvents_app, !app_nil_r.
  - destruct (gate st); [|done].
    destruct (errBuf st); [destruct (errClosed st); [|done]|]; stepped; cbn;
      by rewrite !watcherEvents_app, !app_nil_r.
Qed.

Lemma watcher_run (stop0 : bool) (sched : list Move) (st st' : State) :
  watcherEvents (trace st) = watcherDone (watcher st) ∧
  (stopClosed st = true → stop0 = true ∨ watcher st = WDone) →
  run sched st = Some st' →
  watcherEvents (trace st') = watcherDone (watcher st') ∧
  (stopClosed st' = true → stop0 = true ∨ watcher st' = WDone).
Proof.
  revert st. induction sched as [|m sched IH]; intros st Hinv Hrun;
    cbn [run] in Hrun.
  - by injection Hrun as <-.
  - destruct (step m st) as [st1|] eqn:Hstep; [|done].
    eapply IH; [|done]. by eapply watcher_step.
Qed.

(** Without a signal the watcher keeps waiting and [stopCh] is left alone. *)
Lemma unsignalled_step (m : Move) (st st' : State) :
  watcher st = WWaiting → m ≠ MSignal → step m st = Some st' →
  watcher st' = WWaiting ∧ stopClosed st' = stopClosed st.
Proof.
  intros Hw Hm Hstep. unfold step in Hstep.
  destruct (crashed st); [done|].
  destruct m; try done.
  - apply stepSetup_leaves_watcher in Hstep as (-> & -> & _). done.
  - by rewrite Hw in Hstep.
  - destruct (forwarder st); try discriminate.
    destruct (readyClosed st); by stepped.
  - destruct (forwarder st); try discriminate; by stepped.
  - destruct (gate st); [|done]. destruct (readyClosed st); [|done]. by stepped.
  - destruct (gate st); [|done].
    destruct (errBuf st); [destruct (errClosed st); [|done]|]; by stepped.
Qed.

Lemma unsignalled_run (sched : list Move) (st st' : State) :
  watcher st = WWaiting → MSignal ∉ sched → run sched st = Some st' →
  watcher st' = WWaiting ∧ stopClosed st' = stopClosed st.
Proof.
  revert st. induction sched as [|m sched IH]; intros st Hw Hno Hrun;
    cbn [run] in Hrun.
  - by injection Hrun as <-.
  - destruct (step m st) as [st1|] eqn:Hstep; [|done].
    apply not_elem_of_cons in Hno as [Hm Hno].
    destruct (unsignalled_step m st st1 Hw) as [Hw1 Hs1]; [done..|].
    destruct (IH st1 Hw1 Hno Hrun) as [? ?]. split; [done | congruence].
Qed.

(** X12. The interrupt watcher of lines 35-39 in every execution of a
    configured call: what it has logged and closed is, according to its
    state, nothing, the "Stopping a forward process..." line, or that line
    followed by one close of [stopCh]; a closed [stopCh] was either handed
    in closed or closed by the watcher; and as long as no signal is
    delivered the watcher does nothing and [stopCh] is as it was handed in,
    also after a failed setup. *)
Theorem watcher_closes_stop_once (w : World) (conn : kubeConn)
    (cfg : RestConfig) (stopCh readyCh : bool) (localPort : string)
    (sched : list Move) (st : State) :
  kubeConfig conn = Some cfg →
  run sched (tryPortForwardIfNeeded w conn stopCh readyCh localPort) = Some st →
  watcherEvents (trace st) = watcherDone (watcher st) ∧
  (stopClosed st = true → stopCh = true ∨ watcher st = WDone) ∧
  (MSignal ∉ sched →
   watcher st = WWaiting ∧ stopClosed st = stopCh ∧ watcherEvents (trace st) = []).
Proof.
  intros Hcfg Hrun.
  pose proof (attempt_configured w conn cfg stopCh readyCh localPort Hcfg) as Hinit.
  destruct (watcher_run stopCh sched
              (tryPortForwardIfNeeded w conn stopCh readyCh localPort) st)
    as [Hev Hstop]; [|done|].
  { rewrite Hinit. cbn. split; [done|]. intros ->. by left. }
  split_and!; [done..|]. intros Hno.
  destruct (unsignalled_run sched
              (tryPortForwardIfNeeded w conn stopCh readyCh localPort) st)
    as [Hw Hs]; [by rewrite Hinit | done..|].
  rewrite Hinit in Hs. cbn in Hs. split_and!; [done..|].
  by rewrite Hev, Hw.
Qed.

(** Scenario C: the setup fails, the caller gets the error, an interrupt
    arrives afterwards. *)
Lemma watcher_closes_stop_once_witness :
  ∃ st,
    kubeConfig scenarioConn = Some scenarioCfg ∧
    run (replicate 5 MSetup ++ [MGateErr; MSignal; MWatcher; MWatcher])
      (tryPortForwardIfNeeded worldC scenarioConn false false "26257") = Some st ∧
    watcher st = WDone ∧
    watcherEvents (trace st)
      = [EWatcherLog LInfo "Stopping a forward process..."; ECloseStop].
Proof.
  destruct (run (replicate 5 MSetup ++ [MGateErr; MSignal; MWatcher; MWatcher])
              (tryPortForwardIfNeeded worldC scenarioConn false false "26257"))
    as [st|] eqn:Hrun; [|by vm_compute in Hrun].
  exists st.
  assert (watcher st = WDone) as Hw.
  { vm_compute in Hrun. by injection Hrun as <-. }
  destruct (watcher_closes_stop_once worldC scenarioConn scenarioCfg false false
              "26257" _ st eq_refl Hrun) as (Hev & _).
  split_and!; [reflexivity | reflexivity | exact Hw |].
  by rewrite Hev, Hw.
Defined.

(** X13. The close of [stopCh] is not guarded: when the caller hands in a
    [stopCh] that is closed already, a signal makes the watcher log its line
    and then panic on the close of a closed channel, with the caller still
    in its [select]; nothing runs after that. *)
Theorem interrupt_on_closed_stop_panics (w : World) (conn : kubeConn)
    (cfg : RestConfig) (readyCh : bool) (localPort : string) :
  kubeConfig conn = Some cfg →
  ∃ st,
    run [MSignal; MWatcher; MWatcher]
      (tryPortForwardIfNeeded w conn true readyCh localPort) = Some st ∧
    crashed st = Some "close of closed channel" ∧
    watcherEvents (trace st)
      = [EWatcherLog LInfo "Stopping a forward process..."] ∧
    gate st = GSelect ∧
    ∀ m, step m st = None.
Proof.
  intros Hcfg.
  rewrite (attempt_configured w conn cfg true readyCh localPort Hcfg).
  generalize (setupSequence w cfg (nameSpace conn) (serviceName conn)
                (remotePort conn) localPort). intros script.
  eexists. split; [reflexivity|]. by split_and!.
Qed.

Lemma interrupt_on_closed_stop_panics_witness :
  kubeConfig scenarioConn = Some scenarioCfg ∧
  ∃ st,
    run [MSignal; MWatcher; MWatcher]
      (tryPortForwardIfNeeded worldA scenarioConn true false "26257") = Some st ∧
    crashed st = Some "close of closed channel" ∧
    watcherEvents (trace st)
      = [EWatcherLog LInfo "Stopping a forward process..."] ∧
    gate st = GSelect ∧
    ∀ m, step m st = None.
Proof.
  split; [reflexivity|].
  exact (interrupt_on_closed_stop_panics worldA scenarioConn scenarioCfg false
           "26257" eq_refl).
Defined.

(** ** The collaborators *)

Section Collaborators.
Variables (w : World) (cfg : RestConfig).
Variables (ns name rport lport : string).

Local Abbreviation script := (setupSequence w cfg ns name rport lport).

Lemma calls_afterReady (livePod : string) :
  calls (afterReady w lport rport livePod) = [CGetPorts].
Proof. unfold afterReady. by repeat case_match. Qed.

(** The calls of a script are the first [n] of the seven call sites, in the
    order of the source, and the first is the service lookup. *)
Lemma calls_in_order :
  ∃ n later, 1 ≤ n ≤ 7 ∧ callKind <$> calls script = seq 0 n ∧
             calls script = CServicesGet ns name :: later.
Proof.
  unfold setupSequence, startTunnel. cbn [calls].
  repeat case_match; cbn [calls abort app];
    rewrite ?calls_afterReady; cbn [fmap list_fmap callKind];
    first [ by exists 1; eexists; split_and!; [lia..| |]
          | by exists 2; eexists; split_and!; [lia..| |]
          | by exists 3; eexists; split_and!; [lia..| |]
          | by exists 4; eexists; split_and!; [lia..| |]
          | by exists 6; eexists; split_and!; [lia..| |]
          | by exists 7; eexists; split_and!; [lia..| |] ].
Qed.

(** A port forwarder is created only on loopback, for the one port pair,
    after a Running pod was picked from the pods listed for the service's
    selector in the service's namespace and the URL to that pod parsed. *)
Lemma tunnel_call_target (addresses ports : list string) :
  CNewOnAddresses addresses ports ∈ calls script →
  addresses = ["127.0.0.1"] ∧ ports = [lport +:+ ":" +:+ rport] ∧
  ∃ svc pods livePod serverURL,
    ServicesGet w ns name = Ok svc ∧
    PodsList w (SvcNamespace svc)
      (mapToSelectorStr (rangeOrder w) (SvcSelector svc)) = Ok pods ∧
    getPodName pods = (livePod, None) ∧
    urlParse w (serverURLString (Host cfg) ns livePod) = Ok serverURL ∧
    CNewDialer serverURL ∈ calls script.
Proof.
  unfold setupSequence, startTunnel. cbn [calls].
  destruct (ServicesGet w ns name) as [svc|?] eqn:Hsvc;
    [|intros H; cbn in H; not_listed H].
  destruct (String.eqb _ "") eqn:Hsel; [intros H; cbn in H; not_listed H|].
  cbn [calls].
  destruct (PodsList w _ _) as [pods|?] eqn:Hlist;
    [|intros H; cbn in H; not_listed H].
  destruct (Nat.eqb _ 0); [intros H; cbn in H; not_listed H|].
  destruct (getPodName pods) as [livePod [?|]] eqn:Hpick;
    [intros H; cbn in H; not_listed H|].
  cbn [calls].
  destruct (urlParse w _) as [serverURL|?] eqn:Hurl;
    [|intros H; cbn in H; not_listed H].
  cbn [calls].
  destruct (RoundTripperFor w cfg) as [?|?];
    [|intros H; cbn in H; not_listed H].
  cbn [calls]. intros Hin.
  assert (CNewOnAddresses addresses ports
          = CNewOnAddresses ["127.0.0.1"] [lport +:+ ":" +:+ rport]) as Heq.
  { do 5 (apply elem_of_cons in Hin as [Hin|Hin]; [discriminate Hin|]).
    apply elem_of_cons in Hin as [Hin|Hin]; [done|].
    exfalso. destruct (NewOnAddresses w _ _).
    - cbn [calls] in Hin. rewrite calls_afterReady in Hin. not_listed Hin.
    - cbn in Hin. not_listed Hin. }
  injection Heq as -> ->. split_and!; [done..|].
  exists svc, pods, livePod, serverURL. split_and!; [done..|].
  do 4 (apply elem_of_cons; right). by apply elem_of_cons; left.
Qed.
End Collaborators.

(** X14. In every execution of a configured call the collaborators are
    called in the order of the source, each call site at most once (nothing
    is retried): the calls made so far are the first [n] of service lookup,
    pod listing, URL parsing, round tripper, dialer, port forwarder and port
    query, and the first call is the lookup of the configured service in
    the configured namespace. *)
Theorem collaborators_called_in_order (w : World) (conn : kubeConn)
    (cfg : RestConfig) (stopCh readyCh : bool) (localPort : string)
    (sched : list Move) (st : State) :
  kubeConfig conn = Some cfg →
  run sched (tryPortForwardIfNeeded w conn stopCh readyCh localPort) = Some st →
  (∃ n, n ≤ 7 ∧ callKind <$> callsMade st = seq 0 n) ∧
  (∀ c, head (callsMade st) = Some c →
        c = CServicesGet (nameSpace conn) (serviceName conn)).
Proof.
  intros Hcfg Hrun.
  destruct (callsMade_prefix w conn cfg _ _ _ Hcfg _ _ Hrun) as [later Hcalls].
  destruct (calls_in_order w cfg (nameSpace conn) (serviceName conn)
              (remotePort conn) localPort) as (n & rest & Hn & Hkinds & Hfirst).
  split.
  - exists (length (callsMade st)).
    rewrite Hcalls, fmap_app in Hkinds.
    assert (length (callsMade st) ≤ n) as Hle.
    { apply (f_equal length) in Hkinds.
      rewrite length_app, !length_fmap, length_seq in Hkinds. lia. }
    split; [lia|].
    apply (f_equal (take (length (callsMade st)))) in Hkinds.
    rewrite take_app_length', take_seq in Hkinds by (by rewrite length_fmap).
    rewrite Hkinds. f_equal. lia.
  - intros c Hc. rewrite Hcalls in Hfirst.
    destruct (callsMade st) as [|c0 l]; [done|].
    cbn in Hc, Hfirst. congruence.
Qed.

(** Scenario D to its end: all seven calls were made. *)
Lemma collaborators_called_in_order_witness :
  ∃ st,
    kubeConfig scenarioConn = Some scenarioCfg ∧
    run readyFirst (tryPortForwardIfNeeded worldD scenarioConn false false "26257")
      = Some st ∧
    callKind <$> callsMade st = seq 0 7 ∧
    head (callsMade st) = Some (CServicesGet "db" "cockroachdb-public").
Proof.
  destruct (run readyFirst
              (tryPortForwardIfNeeded worldD scenarioConn false false "26257"))
    as [st|] eqn:Hrun; [|by vm_compute in Hrun].
  exists st.
  destruct (collaborators_called_in_order worldD scenarioConn scenarioCfg false
              false "26257" readyFirst st eq_refl Hrun) as [(n & _ & Hn) Hhead].
  assert (length (callsMade st) = 7) as Hlen.
  { vm_compute in Hrun. by injection Hrun as <-. }
  assert (n = 7) as ->.
  { apply (f_equal length) in Hn. rewrite length_fmap, length_seq in Hn. lia. }
  split_and!; [reflexivity | reflexivity | exact Hn |].
  destruct (callsMade st) as [|c l]; [done|]. cbn. f_equal. by apply Hhead.
Defined.

(** X15. In every execution of a configured call, a port forwarder is only
    ever created on the loopback address and for the single pair
    [localPort:remotePort], and only after the service was resolved, its
    pods listed in the service's own namespace under the built selector, a
    pod picked by [getPodName] without error (the first Running one), and
    the URL to that pod in the configured namespace parsed. *)
Theorem tunnel_only_to_running_pod (w : World) (conn : kubeConn)
    (cfg : RestConfig) (stopCh readyCh : bool) (localPort : string)
    (sched : list Move) (st : State) (addresses ports : list string) :
  kubeConfig conn = Some cfg →
  run sched (tryPortForwardIfNeeded w conn stopCh readyCh localPort) = Some st →
  CNewOnAddresses addresses ports ∈ callsMade st →
  addresses = ["127.0.0.1"] ∧
  ports = [localPort +:+ ":" +:+ remotePort conn] ∧
  ∃ svc pods pre p post serverURL,
    ServicesGet w (nameSpace conn) (serviceName conn) = Ok svc ∧
    PodsList w (SvcNamespace svc)
      (mapToSelectorStr (rangeOrder w) (SvcSelector svc)) = Ok pods ∧
    Items pods = pre ++ p :: post ∧
    Forall (λ q, Phase q ≠ PodRunning) pre ∧ Phase p = PodRunning ∧
    urlParse w (serverURLString (Host cfg) (nameSpace conn) (Name p))
      = Ok serverURL.
Proof.
  intros Hcfg Hrun Hin.
  destruct (callsMade_prefix w conn cfg _ _ _ Hcfg _ _ Hrun) as [later Hcalls].
  eapply elem_of_prefix_of in Hin; [|exact Hcalls].
  apply tunnel_call_target in Hin
    as (-> & -> & svc & pods & livePod & url & Hsvc & Hlist & Hpick & Hurl & _).
  split_and!; [done..|].
  unfold getPodName in Hpick.
  assert (∃ pre p post, Items pods = pre ++ p :: post ∧
            Forall (λ q, Phase q ≠ PodRunning) pre ∧
            Phase p = PodRunning ∧ Name p = livePod)
    as (pre & p & post & Hitems & Hpre & Hp & <-).
  { clear Hlist. induction (Items pods) as [|x items IH]; cbn in Hpick; [done|].
    destruct (String.eqb_spec (Phase x) PodRunning) as [Hx|Hx]; cbn in Hpick.
    - injection Hpick as <-. by exists [], x, items.
    - destruct (IH Hpick) as (pre & p & post & -> & ? & ? & ?).
      exists (x :: pre), p, post. split_and!; [done | by constructor | done..]. }
  by exists svc, pods, pre, p, post, url.
Qed.

Lemma tunnel_only_to_running_pod_witness :
  ∃ st,
    kubeConfig scenarioConn = Some scenarioCfg ∧
    run (replicate 6 MSetup)
      (tryPortForwardIfNeeded worldA scenarioConn false false "5432") = Some st ∧
    CNewOnAddresses ["127.0.0.1"] ["5432:26257"] ∈ callsMade st ∧
    ∃ svc pods pre p post serverURL,
      ServicesGet worldA "db" "cockroachdb-public" = Ok svc ∧
      PodsList worldA (SvcNamespace svc)
        (mapToSelectorStr (rangeOrder worldA) (SvcSelector svc)) = Ok pods ∧
      Items pods = pre ++ p :: post ∧
      Forall (λ q, Phase q ≠ PodRunning) pre ∧ Phase p = PodRunning ∧
      urlParse worldA (serverURLString (Host scenarioCfg) "db" (Name p))
        = Ok serverURL.
Proof.
  destruct (run (replicate 6 MSetup)
              (tryPortForwardIfNeeded worldA scenarioConn false false "5432"))
    as [st|] eqn:Hrun; [|by vm_compute in Hrun].
  exists st.
  assert (CNewOnAddresses ["127.0.0.1"] ["5432:26257"] ∈ callsMade st) as Hin.
  { pose proof Hrun as Hval. vm_compute in Hval. injection Hval as <-.
    do 5 (apply elem_of_cons; right). by apply elem_of_cons; left. }
  split_and!; [reflexivity | reflexivity | exact Hin |].
  exact (proj2 (proj2 (tunnel_only_to_running_pod worldA scenarioConn scenarioCfg
                         false false "5432" _ st _ _ eq_refl Hrun Hin))).
Defined.

(** ** Log lines *)

Lemma logs_app (a b : list Action) : logs (a ++ b) = logs a ++ logs b.
Proof.
  induction a as [|x a IH]; [done|]. destruct x; cbn; by rewrite ?IH.
Qed.

Lemma logs_calls (pre : list Action) : Forall isCall pre → logs pre = [].
Proof. induction 1 as [|[] ? ? _ IH]; done. Qed.

Section Logging.
Variables (w : World) (cfg : RestConfig).
Variables (ns name rport lport : string).

Local Abbreviation script := (setupSequence w cfg ns name rport lport).

(** The one log line of a script: an error line in a failing attempt, the
    success line in a passing one. *)
Lemma logs_of_script :
  (∃ msg e, StepFails w cfg ns name rport lport e ∧
            logs script = [(LError, msg)] ∧ sends script = [e])
  ∨ (∃ livePod, allStepsPass w cfg ns name rport lport livePod ∧
                logs script = [(LInfo, establishedMsg lport rport livePod)] ∧
                sends script = []).
Proof.
  destruct (script_shape w cfg ns name rport lport)
    as (pre & Hpre & [(msg & e & Hf & Hs)|[(msg & e & Hf & Hs)|(p & Hp & Hs)]]).
  - left. exists msg, e. rewrite Hs, logs_app, sends_app, logs_calls, sends_calls
      by done. split_and!; [by left | done..].
  - left. exists msg, e. rewrite Hs, logs_app, sends_app, logs_calls, sends_calls
      by done. split_and!; [by right | done..].
  - right. exists p. rewrite Hs, logs_app, sends_app, logs_calls, sends_calls
      by done. by split_and!.
Qed.

(** The statement before a send is the error log line. *)
Lemma log_before_send (past k : list Action) (e : error) :
  script = past ++ ASend e :: k →
  ∃ past' msg, past = past' ++ [ALog LError msg].
Proof.
  intros Hs.
  destruct (script_shape w cfg ns name rport lport)
    as (pre & Hpre & [(msg & e' & _ & Hsh)|[(msg & e' & _ & Hsh)|(p & Hp & Hsh)]]).
  - rewrite Hsh in Hs. unfold abort in Hs.
    change (pre ++ [ALog LError msg; ASend e'; ACloseErr])
      with (pre ++ [ALog LError msg] ++ ASend e' :: [ACloseErr]) in Hs.
    rewrite app_assoc in Hs.
    destruct (send_is_last w cfg ns name rport lport past k e) as [_ Hpast].
    { by rewrite Hsh, <- Hs, <- app_assoc. }
    assert (e' = e ∧ [ACloseErr] = k) as [_ _].
    { eapply send_position; [| |exact Hs]; [|done].
      by rewrite sends_app, sends_calls. }
    exists pre, msg.
    assert (sends (pre ++ [ALog LError msg]) = []) as Hpre'
      by (by rewrite sends_app, sends_calls).
    revert Hs Hpre' Hpast. generalize (pre ++ [ALog LError msg]). intros l Hs Hl Hpast.
    revert past Hs Hpast. induction l as [|x l IH]; intros [|y past] Hs Hpast;
      cbn in Hs.
    + done.
    + injection Hs as <- _. discriminate Hpast.
    + injection Hs as -> _. discriminate Hl.
    + injection Hs as -> Hs. f_equal.
      apply sends_nil_cons in Hl as [Hl _].
      apply sends_nil_cons in Hpast as [Hpast _]. by apply IH.
  - rewrite Hsh in Hs. unfold abort, awaitThen in Hs.
    change (pre ++ [AGoForward; ARecvReady; ACall CGetPorts;
                    ALog LError msg; ASend e'; ACloseErr])
      with (pre ++ [AGoForward; ARecvReady; ACall CGetPorts; ALog LError msg]
                ++ ASend e' :: [ACloseErr]) in Hs.
    rewrite app_assoc in Hs.
    destruct (send_is_last w cfg ns name rport lport past k e) as [_ Hpast].
    { by rewrite Hsh, <- Hs, <- app_assoc. }
    exists (pre ++ [AGoForward; ARecvReady; ACall CGetPorts]), msg.
    rewrite <- app_assoc.
    assert (sends (pre ++ [AGoForward; ARecvReady; ACall CGetPorts;
                           ALog LError msg]) = []) as Hpre'
      by (by rewrite sends_app, sends_calls).
    cbn [app].
    revert Hs Hpre' Hpast.
    generalize (pre ++ [AGoForward; ARecvReady; ACall CGetPorts; ALog LError msg]).
    intros l Hs Hl Hpast.
    revert past Hs Hpast. induction l as [|x l IH]; intros [|y past] Hs Hpast;
      cbn in Hs.
    + done.
    + injection Hs as <- _. discriminate Hpast.
    + injection Hs as -> _. discriminate Hl.
    + injection Hs as -> Hs. f_equal.
      apply sends_nil_cons in Hl as [Hl _].
      apply sends_nil_cons in Hpast as [Hpast _]. by apply IH.
  - apply sends_passes in Hp. rewrite Hs, sends_app in Hp.
    by apply app_eq_nil in Hp as [_ ?].
Qed.
End Logging.

Lemma sends_split (l : list Action) :
  sends l ≠ [] → ∃ p1 e p2, l = p1 ++ ASend e :: p2.
Proof.
  induction l as [|x l IH]; [done|]. intros Hne.
  destruct x as [c|lvl msg|e| | |];
    try (destruct (IH Hne) as (p1 & e & p2 & ->);
         by eexists (_ :: p1), e, p2).
  by exists [], e, l.
Qed.

(** X16. Every attempt logs one line from the setup goroutine and no more:
    in every execution at most one line has been logged; when an error has
    been sent, an error line was logged before it (and nothing else); and
    when the goroutine has finished, it has logged either one error line
    and sent the error of the failing step, or the "Port forwarding
    established" line and sent nothing. *)
Theorem one_log_line_per_attempt (w : World) (conn : kubeConn)
    (cfg : RestConfig) (stopCh readyCh : bool) (localPort : string)
    (sched : list Move) (st : State) :
  kubeConfig conn = Some cfg →
  run sched (tryPortForwardIfNeeded w conn stopCh readyCh localPort) = Some st →
  length (logs (performed (trace st))) ≤ 1 ∧
  (sentErrors st ≠ [] → ∃ msg, logs (performed (trace st)) = [(LError, msg)]) ∧
  (setup st = Some [] →
   (∃ msg e,
      StepFails w cfg (nameSpace conn) (serviceName conn) (remotePort conn)
        localPort e ∧
      logs (performed (trace st)) = [(LError, msg)] ∧ sentErrors st = [e])
   ∨ (∃ livePod,
        allStepsPass w cfg (nameSpace conn) (serviceName conn) (remotePort conn)
          localPort livePod ∧
        logs (performed (trace st))
          = [(LInfo, establishedMsg localPort (remotePort conn) livePod)] ∧
        sentErrors st = [])).
Proof.
  intros Hcfg Hrun.
  destruct (performed_prefix w conn cfg _ _ _ Hcfg _ _ Hrun) as (rest & Hs & Hset).
  assert (length (logs (setupSequence w cfg (nameSpace conn) (serviceName conn)
                          (remotePort conn) localPort)) = 1) as Hone.
  { destruct (logs_of_script w cfg (nameSpace conn) (serviceName conn)
                (remotePort conn) localPort)
      as [(? & ? & _ & -> & _)|(? & _ & -> & _)]; done. }
  assert (length (logs (performed (trace st))) ≤ 1) as Hle.
  { rewrite Hs, logs_app, length_app in Hone. lia. }
  split_and!; [done| |].
  - intros Hsent. apply sends_split in Hsent as (p1 & e & p2 & Hp).
    rewrite Hp, <- app_assoc in Hs. cbn [app] in Hs.
    apply log_before_send in Hs as (past' & msg & ->).
    exists msg. rewrite Hp, <- app_assoc, !logs_app in Hle |- *.
    cbn [logs app] in Hle |- *. rewrite length_app in Hle. cbn [length] in Hle.
    destruct (logs past'); [|cbn in Hle; lia].
    destruct (logs p2); [done | cbn in Hle; lia].
  - intros Hdone. unfold sentErrors.
    rewrite (finished_performed_all w conn cfg _ _ _ Hcfg _ _ Hrun Hdone).
    destruct (logs_of_script w cfg (nameSpace conn) (serviceName conn)
                (remotePort conn) localPort)
      as [(msg & e & ? & ? & ?)|(p & ? & ? & ?)].
    + left. by exists msg, e.
    + right. by exists p.
Qed.

(** Scenario C with the setup goroutine run to its end. *)
Lemma one_log_line_per_attempt_witness :
  ∃ st,
    kubeConfig scenarioConn = Some scenarioCfg ∧
    run (replicate 5 MSetup)
      (tryPortForwardIfNeeded worldC scenarioConn false false "26257") = Some st ∧
    logs (performed (trace st))
      = [(LError, "no CockroachDB pods found with selector app=cockroachdb")] ∧
    length (logs (performed (trace st))) ≤ 1.
Proof.
  destruct (run (replicate 5 MSetup)
              (tryPortForwardIfNeeded worldC scenarioConn false false "26257"))
    as [st|] eqn:Hrun; [|by vm_compute in Hrun].
  exists st.
  assert (logs (performed (trace st))
          = [(LError, "no CockroachDB pods found with selector app=cockroachdb")])
    as Hlogs.
  { pose proof Hrun as Hval. vm_compute in Hval. by injection Hval as <-. }
  split_and!; [reflexivity | reflexivity | exact Hlogs |].
  exact (proj1 (one_log_line_per_attempt worldC scenarioConn scenarioCfg false
                  false "26257" _ st eq_refl Hrun)).
Defined.

(** ** Waiting for readiness *)

Lemma blocked_step (m : Move) (st st' : State) :
  blockedInv st → step m st = Some st' → blockedInv st'.
Proof.
  intros (Hf & Hr & [k Hset] & Hg & Hbuf & Hcl) Hstep.
  unfold step, stepSetup in Hstep.
  destruct (crashed st); [done|].
  destruct m.
  - by rewrite Hset, Hr in Hstep.
  - destruct (watcher st); try discriminate. stepped.
    split_and!; try done. by exists k.
  - destruct (watcher st); try discriminate.
    + stepped. split_and!; try done. by exists k.
    + destruct (stopClosed st); stepped; split_and!; try done; by exists k.
  - by rewrite Hf in Hstep.
  - by rewrite Hf in Hstep.
  - by rewrite Hg, Hr in Hstep.
  - by rewrite Hg, Hbuf, Hcl in Hstep.
Qed.

Lemma blocked_run (sched : list Move) (st st' : State) :
  blockedInv st → run sched st = Some st' → blockedInv st'.
Proof.
  revert st. induction sched as [|m sched IH]; intros st Hinv Hrun;
    cbn [run] in Hrun.
  - by injection Hrun as <-.
  - destruct (step m st) as [st1|] eqn:Hstep; [|done].
    eapply IH; [|done]. by eapply blocked_step.
Qed.

(** The forwarder is spawned and exits before reporting. *)
Lemma run_spawn_exit (tail : list Action) (st : State) :
  setup st = Some (awaitThen tail) →
  errBuf st = [] → errClosed st = false → readyClosed st = false →
  gate st = GSelect → crashed st = None →
  ∃ st', run [MSetup; MForwardExit] st = Some st' ∧
         blockedInv st' ∧ crashed st' = None.
Proof.
  destruct st as [buf cl stop rdy set wt fw g cr tr].
  cbn [setup errBuf errClosed readyClosed gate crashed].
  intros -> -> -> -> -> ->.
  eexists. split; [reflexivity|]. unfold blockedInv. cbn.
  split_and!; try done. by eexists.
Qed.

(** X17. There is no timeout. Once the tunnel has been created (steps 1-7
    passed) and [readyCh] was handed in open, the caller returns only after
    [readyCh] has been closed: while it is open the caller is in its
    [select] and no error has been sent. And when the forwarder exits
    without ever reporting readiness, nothing can release the caller any
    more: it stays in its [select] in every continuation. *)
Theorem caller_blocks_until_ready (w : World) (conn : kubeConn)
    (cfg : RestConfig) (stopCh : bool) (localPort livePod : string) :
  kubeConfig conn = Some cfg →
  tunnels w cfg (nameSpace conn) (serviceName conn) (remotePort conn)
    localPort livePod →
  (∀ sched st,
     run sched (tryPortForwardIfNeeded w conn stopCh false localPort) = Some st →
     readyClosed st = false →
     gate st = GSelect ∧ sentErrors st = []) ∧
  (∃ sched st,
     run sched (tryPortForwardIfNeeded w conn stopCh false localPort) = Some st ∧
     crashed st = None ∧
     ∀ sched' st', run sched' st = Some st' →
                   gate st' = GSelect ∧ readyClosed st' = false).
Proof.
  intros Hcfg Htun.
  destruct (script_tunnels w cfg _ _ _ _ _ Htun) as (pre & Hpre & Hno & Hscript).
  assert (∃ tail, setupSequence w cfg (nameSpace conn) (serviceName conn)
                    (remotePort conn) localPort = pre ++ awaitThen tail)
    as [tail Htail].
  { rewrite Hscript. unfold afterReady, awaitThen. by eexists. }
  split.
  - intros sched st Hrun Hopen.
    assert (sentErrors st = []) as Hsent.
    { destruct (port_query_position w conn cfg _ _ _ Hcfg _ _ pre tail Hrun
                  Htail Hpre) as [[k Hk]|[k [_ Hready]]]; [|congruence].
      by apply (before_query_quiet _ _ _ Hpre Hno) in Hk as (? & _ & _). }
    split; [|done]. destruct (gate st) as [|d] eqn:Hgate; [done|].
    destruct (returned_result w conn cfg _ _ _ Hcfg _ _ _ Hrun Hgate)
      as [[_ ?]|(e & _ & _ & He)]; [congruence|].
    by rewrite Hsent in He.
  - destruct (run_to_tunnel w conn cfg stopCh localPort Hcfg pre _ Hpre Htail)
      as (st1 & Hrun1 & Hset1 & Hbuf1 & Hcl1 & Hg1 & Hlive1 & Hrd1).
    destruct (run_spawn_exit tail st1 Hset1 Hbuf1 Hcl1 Hrd1 Hg1 Hlive1)
      as (st2 & Hrun2 & Hblocked & Hlive2).
    exists (replicate (length pre) MSetup ++ [MSetup; MForwardExit]), st2.
    split_and!; [by rewrite run_app, Hrun1 | done |].
    intros sched' st' Hrun'.
    by destruct (blocked_run sched' st2 st' Hblocked Hrun')
      as (_ & ? & _ & ? & _).
Qed.

(** Scenario A when the forwarder exits before its listeners are up. *)
Lemma caller_blocks_until_ready_witness :
  kubeConfig scenarioConn = Some scenarioCfg ∧
  tunnels worldA scenarioCfg "db" "cockroachdb-public" "26257" "26257" "p1" ∧
  ∃ sched st,
    run sched (tryPortForwardIfNeeded worldA scenarioConn false false "26257")
      = Some st ∧
    crashed st = None ∧
    ∀ sched' st', run sched' st = Some st' →
                  gate st' = GSelect ∧ readyClosed st' = false.
Proof.
  split; [reflexivity|]. split; [exact (proj1 scenarioA_passes)|].
  exact (proj2 (caller_blocks_until_ready worldA scenarioConn scenarioCfg false
                  "26257" "p1" eq_refl (proj1 scenarioA_passes))).
Defined.

(** X18. After readiness nothing can block any more: from every state of a
    configured call that is reached without a panic and in which [readyCh]
    is closed, the setup goroutine can be run to its end and the caller
    returns, with nil diagnostics or with the diagnostic of a failure that
    occurred. *)
Theorem ready_call_can_complete (w : World) (conn : kubeConn)
    (cfg : RestConfig) (stopCh readyCh : bool) (localPort : string)
    (sched : list Move) (st : State) :
  kubeConfig conn = Some cfg →
  run sched (tryPortForwardIfNeeded w conn stopCh readyCh localPort) = Some st →
  crashed st = None →
  readyClosed st = true →
  ∃ sched' st' d,
    run sched' st = Some st' ∧ setup st' = Some [] ∧ crashed st' = None ∧
    gate st' = GReturned d ∧
    (d = [] ∨ ∃ e, StepFails w cfg (nameSpace conn) (serviceName conn)
                     (remotePort conn) localPort e ∧
                   d = [{| DiagSeverity := SevError; Summary := Error e |}]).
Proof.
  intros Hcfg Hrun Hlive Hready.
  destruct (performed_prefix w conn cfg _ _ _ Hcfg _ _ Hrun) as (rest & Hs & Hset).
  destruct (setup_runs_on w conn cfg _ _ _ Hcfg rest sched st Hrun Hlive Hset)
    as (st1 & Hrun1 & Hset1 & Hlive1 & Hgate1); [done|].
  pose proof (reachable_run w conn _ _ _ _ _ _ _ Hrun Hrun1) as Hreach1.
  assert (∀ sched2 st2 d,
            run sched2 st1 = Some st2 → gate st2 = GReturned d →
            d = [] ∨ ∃ e, StepFails w cfg (nameSpace conn) (serviceName conn)
                            (remotePort conn) localPort e ∧
                          d = [{| DiagSeverity := SevError; Summary := Error e |}])
    as Hres.
  { intros sched2 st2 d Hrun2 Hd.
    pose proof (reachable_run w conn _ _ _ _ _ _ _ Hreach1 Hrun2) as Hreach2.
    destruct (returned_result w conn cfg _ _ _ Hcfg _ _ _ Hreach2 Hd)
      as [[-> _]|(e & ? & -> & _)]; [by left|]. right. by exists e. }
  destruct (gate st1) as [|d] eqn:Hg1.
  - destruct (finished_gate_receives w conn cfg _ _ _ Hcfg _ _ Hreach1 Hlive1
                Hset1 Hg1) as (st2 & Hstep2 & Hg2).
    assert (run [MGateErr] st1 = Some st2) as Hrun2 by (cbn; by rewrite Hstep2).
    exists (replicate (length rest) MSetup ++ [MGateErr]), st2. eexists.
    split_and!; [by rewrite run_app, Hrun1 | | | exact Hg2 | by eapply Hres].
    + unfold step in Hstep2. rewrite Hlive1, Hg1 in Hstep2.
      destruct (errBuf st1); [destruct (errClosed st1); [|done]|];
        stepped; done.
    + unfold step in Hstep2. rewrite Hlive1, Hg1 in Hstep2.
      destruct (errBuf st1); [destruct (errClosed st1); [|done]|];
        stepped; done.
  - exists (replicate (length rest) MSetup), st1, d.
    split_and!; [done..|]. by apply (Hres [] st1).
Qed.

(** Scenario A once the forwarder has reported. *)
Lemma ready_call_can_complete_witness :
  ∃ st,
    kubeConfig scenarioConn = Some scenarioCfg ∧
    run (replicate 7 MSetup ++ [MForwardReady])
      (tryPortForwardIfNeeded worldA scenarioConn false false "26257") = Some st ∧
    crashed st = None ∧ readyClosed st = true ∧
    ∃ sched' st' d,
      run sched' st = Some st' ∧ setup st' = Some [] ∧ crashed st' = None ∧
      gate st' = GReturned d ∧
      (d = [] ∨ ∃ e, StepFails worldA scenarioCfg "db" "cockroachdb-public"
                       "26257" "26257" e ∧
                     d = [{| DiagSeverity := SevError; Summary := Error e |}]).
Proof.
  destruct (run (replicate 7 MSetup ++ [MForwardReady])
              (tryPortForwardIfNeeded worldA scenarioConn false false "26257"))
    as [st|] eqn:Hrun; [|by vm_compute in Hrun].
  exists st.
  assert (crashed st = None ∧ readyClosed st = true) as [Hlive Hready].
  { pose proof Hrun as Hval. clear Hrun. vm_compute in Hval.
    injection Hval as <-. split; reflexivity. }
  split_and!; [reflexivity | reflexivity | exact Hlive | exact Hready |].
  exact (ready_call_can_complete worldA scenarioConn scenarioCfg false false
           "26257" _ st eq_refl Hrun Hlive Hready).
Defined.
